(** * SharpToolKit-React: the image-to-PDF collection manager and the
    PDF-split page validation

    A shallow embedding of the event handlers of
    [src/components/tools/pdf/imgtopdf.tsx] and
    [src/components/tools/pdf/pdfsplit.tsx].

    React state hooks become fields of a [State] record; each handler is a
    transition on the pair of the component state and the browser it runs
    in.  What the browser supplies ([Math.random], [URL.createObjectURL],
    the image [load] event, the clock, the jsPDF page size) is a field of
    the [Browser] record, so every handler is an executable function. *)

From Stdlib Require Import QArith Qminmax.
From stdpp Require Import base list strings pretty relations.

(** ** JavaScript numbers

    The page geometry of [generatePDF] is written over an abstract number
    type: the handlers only subtract, multiply, divide and take a minimum.
    The one law used is that multiplication commutes, which holds for
    IEEE-754 doubles as well as for exact rationals. *)

Class JSNumber (num : Type) := {
  sub : num → num → num;
  mul : num → num → num;
  div : num → num → num;
  Math_min : num → num → num;
  two : num;
  mul_comm : ∀ a b : num, mul a b = mul b a
}.

(** Exact rationals, used to run the handlers on concrete pages. *)
#[export] Instance Q_JSNumber : JSNumber Q.
Proof.
  refine {| sub := Qminus; mul := Qmult; div := Qdiv;
            Math_min := Qmin; two := 2%Q |}.
  intros [an ad] [bn bd]. unfold Qmult; simpl.
  f_equal; [apply Z.mul_comm | apply Pos.mul_comm].
Defined.

Module ImgToPdf.

(** [File]: the handlers read only [file.type]; [name] tells files apart. *)
Record File := { name : string; type : string }.

(** [interface ImageData { file; url; id }] *)
Record ImageData := { file : File; url : string; id : string }.

Inductive Orientation := portrait | landscape.

Inductive Severity := success | error | info.

(** The [status] hook: [{ message, type }]. *)
Record Status := { message : string; severity : Severity }.

Inductive ImageFormat := PNG | JPEG.

Section Component.
Context {num : Type} `{JSNumber num}.

(** [interface PageSettings { orientation; margin; quality }] *)
Record PageSettings := {
  orientation : Orientation;
  margin : num;
  quality : num
}.

(** One [pdf.addImage(imgElement, format, x, y, width, height, '', 'FAST')]. *)
Record Placed := {
  src : string;
  format : ImageFormat;
  x : num;
  y : num;
  width : num;
  height : num;
  alias : string;
  compression : string
}.

(** The jsPDF object: the pages already left behind by [addPage], the page
    being drawn on, and the page size fixed at construction. *)
Record jsPDF := {
  pdfWidth : num;
  pdfHeight : num;
  finished : list (list Placed);
  current : list Placed
}.

Definition pages (pdf : jsPDF) : list (list Placed) :=
  finished pdf ++ [current pdf].

(** The browser: oracles for what the environment answers, and the state
    the handlers can change in it. *)
Record Browser := {
  (** the [k]-th value of [Math.random().toString(36)] *)
  random36 : nat → string;
  (** calls to [Math.random] so far *)
  drawn : nat;
  (** the [k]-th URL minted by [URL.createObjectURL] *)
  blobURL : nat → string;
  (** calls to [URL.createObjectURL] so far *)
  minted : nat;
  (** object URLs created and not revoked *)
  objectURLs : list string;
  (** the [load] event of an [Image] whose [src] is the URL: the intrinsic
      width and height, or [None] when the event never fires *)
  onload : string → option (num * num);
  (** [pageSize.getWidth()], [pageSize.getHeight()] of an a4 document in mm *)
  a4 : Orientation → num * num;
  (** [new Date().getTime()] *)
  now : N;
  (** whether [pdf.addImage] raises on this placement *)
  addImageRaises : Placed → bool;
  (** whether [pdf.save] raises *)
  saveThrows : bool;
  (** documents handed to [pdf.save], oldest first *)
  downloads : list (string * jsPDF)
}.

(** The component's hooks ([showSettings] and [zoomLevel] only drive the
    markup and are left out). *)
Record State := {
  selectedImages : list ImageData;
  status : option Status;
  loading : bool;
  draggedImage : option string;
  pageSettings : PageSettings
}.

Definition setSelectedImages (f : list ImageData → list ImageData) (s : State) : State :=
  {| selectedImages := f (selectedImages s); status := status s;
     loading := loading s; draggedImage := draggedImage s;
     pageSettings := pageSettings s |}.

Definition setStatus (m : string) (t : Severity) (s : State) : State :=
  {| selectedImages := selectedImages s;
     status := Some {| message := m; severity := t |};
     loading := loading s; draggedImage := draggedImage s;
     pageSettings := pageSettings s |}.

Definition setLoading (l : bool) (s : State) : State :=
  {| selectedImages := selectedImages s; status := status s;
     loading := l; draggedImage := draggedImage s;
     pageSettings := pageSettings s |}.

Definition setDraggedImage (d : option string) (s : State) : State :=
  {| selectedImages := selectedImages s; status := status s;
     loading := loading s; draggedImage := d;
     pageSettings := pageSettings s |}.

Definition setPageSettings (f : PageSettings → PageSettings) (s : State) : State :=
  {| selectedImages := selectedImages s; status := status s;
     loading := loading s; draggedImage := draggedImage s;
     pageSettings := f (pageSettings s) |}.

(** *** Browser calls *)

(** [URL.createObjectURL(file)] *)
Definition createObjectURL (f : File) (b : Browser) : string * Browser :=
  let u := blobURL b (minted b) in
  (u, {| random36 := random36 b; drawn := drawn b; blobURL := blobURL b;
         minted := S (minted b); objectURLs := objectURLs b ++ [u];
         onload := onload b; a4 := a4 b; now := now b;
         addImageRaises := addImageRaises b;
         saveThrows := saveThrows b; downloads := downloads b |}).

(** [Math.random().toString(36).substr(2, 9)] *)
Definition generateId (b : Browser) : string * Browser :=
  (String.substring 2 9 (random36 b (drawn b)),
   {| random36 := random36 b; drawn := S (drawn b); blobURL := blobURL b;
      minted := minted b; objectURLs := objectURLs b;
      onload := onload b; a4 := a4 b; now := now b;
      addImageRaises := addImageRaises b;
      saveThrows := saveThrows b; downloads := downloads b |}).

(** [pdf.save(filename)] when it returns *)
Definition save (filename : string) (pdf : jsPDF) (b : Browser) : Browser :=
  {| random36 := random36 b; drawn := drawn b; blobURL := blobURL b;
     minted := minted b; objectURLs := objectURLs b;
     onload := onload b; a4 := a4 b; now := now b;
     addImageRaises := addImageRaises b;
     saveThrows := saveThrows b;
     downloads := downloads b ++ [(filename, pdf)] |}.

(** *** handleFiles *)

Definition accepted : list string :=
  ["image/jpeg"; "image/png"; "image/webp"; "image/gif"].

(** [Array.from(files).filter(file => [...].includes(file.type))] *)
Definition validImages (files : list File) : list File :=
  filter (λ f, type f ∈ accepted) files.

(** [validImages.map(file => ({ file, url: URL.createObjectURL(file), id: generateId() }))] *)
Fixpoint toImageData (files : list File) (b : Browser) : list ImageData * Browser :=
  match files with
  | [] => ([], b)
  | f :: rest =>
      let '(u, b1) := createObjectURL f b in
      let '(i, b2) := generateId b1 in
      let '(tl, b3) := toImageData rest b2 in
      ({| file := f; url := u; id := i |} :: tl, b3)
  end.

Definition handleFiles (files : option (list File)) (s : State) (b : Browser)
  : State * Browser :=
  match files with
  | None => (s, b)
  | Some files =>
      let valid := validImages files in
      if bool_decide (length valid = 0) then
        (setStatus "Please upload valid images (JPEG, PNG, WebP, GIF)" error s, b)
      else if bool_decide (50 < length valid + length (selectedImages s)) then
        (setStatus "Maximum 50 images allowed" error s, b)
      else
        let '(imageData, b') := toImageData valid b in
        (setStatus (pretty (length imageData) +:+ " image(s) added") success
           (setSelectedImages (λ prev, prev ++ imageData) s), b')
  end.

(** *** handleDropImage *)

(** [images.findIndex(p)]: [None] stands for [-1]. *)
Definition findIndex (i : string) (images : list ImageData) : option nat :=
  fst <$> list_find (λ img, id img = i) images.

(** [images.splice(start, 0, item)] *)
Definition splice_in {A} (start : nat) (item : A) (images : list A) : list A :=
  take start images ++ item :: drop start images.

(** The updater passed to [setSelectedImages] by [handleDropImage]. *)
Definition relocate (dragged target : string) (prev : list ImageData)
  : list ImageData :=
  match findIndex dragged prev, findIndex target prev with
  | Some draggedIndex, Some targetIndex =>
      match prev !! draggedIndex with
      | Some draggedItem =>
          splice_in targetIndex draggedItem (delete draggedIndex prev)
      | None => delete draggedIndex prev
      end
  | _, _ => prev
  end.

(** [!draggedImage]: [null] and the empty string are falsy. *)
Definition falsy (d : option string) : bool :=
  match d with
  | None => true
  | Some i => bool_decide (i = "")
  end.

Definition handleDropImage (targetImageId : string) (s : State) : State :=
  if falsy (draggedImage s) || bool_decide (draggedImage s = Some targetImageId)
  then s
  else
    match draggedImage s with
    | None => s
    | Some dragged =>
        setStatus "Image order updated" success
          (setDraggedImage None
             (setSelectedImages (relocate dragged targetImageId) s))
    end.

Definition handleDragStart (imageId : string) (s : State) : State :=
  setDraggedImage (Some imageId) s.

(** *** removeImage, clearAll *)

Definition removeImage (i : string) (s : State) (b : Browser) : State * Browser :=
  let newImages := filter (λ img, id img ≠ i) (selectedImages s) in
  let s' := setSelectedImages (λ _, newImages) s in
  (if bool_decide (length newImages = 0)
   then setStatus "All images removed" success s'
   else s', b).

Definition clearAll (s : State) (b : Browser) : State * Browser :=
  (setStatus "All images cleared" success (setSelectedImages (λ _, []) s), b).

(** *** generatePDF *)

(** [new jsPDF({ orientation, unit: 'mm', format: 'a4' })]: one blank page. *)
Definition new_jsPDF (o : Orientation) (b : Browser) : jsPDF :=
  {| pdfWidth := fst (a4 b o); pdfHeight := snd (a4 b o);
     finished := []; current := [] |}.

(** [pdf.addPage()] *)
Definition addPage (pdf : jsPDF) : jsPDF :=
  {| pdfWidth := pdfWidth pdf; pdfHeight := pdfHeight pdf;
     finished := finished pdf ++ [current pdf]; current := [] |}.

(** [pdf.addImage(...)] draws on the current page. *)
Definition addImage (p : Placed) (pdf : jsPDF) : jsPDF :=
  {| pdfWidth := pdfWidth pdf; pdfHeight := pdfHeight pdf;
     finished := finished pdf; current := current pdf ++ [p] |}.

(** The body of [imgElement.onload] up to the [addImage] call; [w] and [h]
    are [imgElement.width] and [imgElement.height]. *)
Definition place (settings : PageSettings) (pdf : jsPDF) (img : ImageData)
    (w h : num) : Placed :=
  let availableWidth := sub (pdfWidth pdf) (mul (margin settings) two) in
  let availableHeight := sub (pdfHeight pdf) (mul (margin settings) two) in
  let ratio := Math_min (div availableWidth w) (div availableHeight h) in
  let width' := mul w ratio in
  let height' := mul h ratio in
  {| src := url img;
     format := if bool_decide (type (file img) = "image/png") then PNG else JPEG;
     x := div (sub (pdfWidth pdf) width') two;
     y := div (sub (pdfHeight pdf) height') two;
     width := width'; height := height';
     alias := ""; compression := "FAST" |}.

(** The [for] loop from index [i] on.  [None]: the awaited promise of some
    entry never resolves, so the handler never resumes.  That happens when
    the [load] event never fires, and when [pdf.addImage] raises: the
    exception is thrown inside the listener, outside the [try], and
    [resolve()] is not reached. *)
Fixpoint forLoop (settings : PageSettings) (b : Browser) (i : nat)
    (images : list ImageData) (pdf : jsPDF) : option jsPDF :=
  match images with
  | [] => Some pdf
  | img :: rest =>
      let pdf1 := if bool_decide (0 < i) then addPage pdf else pdf in
      match onload b (url img) with
      | None => None
      | Some (w, h) =>
          let placed := place settings pdf1 img w h in
          if addImageRaises b placed then None
          else forLoop settings b (S i) rest (addImage placed pdf1)
      end
  end.

Inductive Outcome :=
  | NoInput
  | Stalled
  | SaveFailed (pdf : jsPDF)
  | Saved (filename : string) (pdf : jsPDF).

(** The document the loop finished, if it did. *)
Definition assembled (o : Outcome) : option jsPDF :=
  match o with
  | SaveFailed pdf | Saved _ pdf => Some pdf
  | NoInput | Stalled => None
  end.

Definition generatePDF (s : State) (b : Browser) : Outcome * State * Browser :=
  if bool_decide (length (selectedImages s) = 0) then
    (NoInput, setStatus "No images selected" error s, b)
  else
    let s1 := setStatus "Generating PDF..." info (setLoading true s) in
    let pdf := new_jsPDF (orientation (pageSettings s)) b in
    match forLoop (pageSettings s) b 0 (selectedImages s) pdf with
    | None => (Stalled, s1, b)
    | Some pdf' =>
        if saveThrows b then
          (SaveFailed pdf',
           setLoading false (setStatus "Error generating PDF" error s1), b)
        else
          let filename := "images-" +:+ pretty (now b) +:+ ".pdf" in
          (Saved filename pdf',
           setLoading false
             (setStatus ("PDF generated with "
                         +:+ pretty (length (selectedImages s))
                         +:+ " image(s)") success s1),
           save filename pdf' b)
    end.

(** *** The assembly step in the words of the specification

    For an image of intrinsic size [(w, h)] on a page of size [(W, H)] with
    margin [m]: [ratio = min((W - 2m)/w, (H - 2m)/h)], the image is scaled
    by [ratio] on both axes and centred at [x = (W - ratio*w)/2],
    [y = (H - ratio*h)/2]; PNG sources are encoded as PNG, all others as
    JPEG. *)

Definition fitRatio (W H m w h : num) : num :=
  Math_min (div (sub W (mul two m)) w) (div (sub H (mul two m)) h).

Definition encoding (mime : string) : ImageFormat :=
  if bool_decide (mime = "image/png") then PNG else JPEG.

Definition fitted (W H m : num) (img : ImageData) (w h : num) : Placed :=
  let ratio := fitRatio W H m w h in
  {| src := url img;
     format := encoding (type (file img));
     x := div (sub W (mul ratio w)) two;
     y := div (sub H (mul ratio h)) two;
     width := mul ratio w; height := mul ratio h;
     alias := ""; compression := "FAST" |}.

(** The page of one entry: its image alone, fitted and centred. *)
Definition pageOf (m : num) (b : Browser) (W H : num) (img : ImageData)
    (page : list Placed) : Prop :=
  ∃ w h, onload b (url img) = Some (w, h) ∧ page = [fitted W H m img w h].

(** The image of the entry loads, and [pdf.addImage] takes its placement
    on a page of size [(W, H)] with margin [m] without raising. *)
Definition placeable (m : num) (b : Browser) (W H : num) (img : ImageData)
  : Prop :=
  ∃ w h, onload b (url img) = Some (w, h)
         ∧ addImageRaises b (fitted W H m img w h) = false.

(** The preview handles live in [b] and no longer in [b']. *)
Definition released (b b' : Browser) : list string :=
  filter (λ u, u ∉ objectURLs b') (objectURLs b).

(** The settings with another [quality]. *)
Definition withQuality (q : num) (s : State) : State :=
  setPageSettings
    (λ p, {| orientation := orientation p; margin := margin p; quality := q |}) s.

(** *** handleDrop *)

(** [handleFiles(e.dataTransfer.files)] *)
Definition handleDrop (files : option (list File)) (s : State) (b : Browser)
  : State * Browser :=
  handleFiles files s b.

(** *** moveImage *)

Inductive Direction := up | down.

(** [images[i]] on an array whose slots may hold [undefined] ([None]):
    [undefined] outside the array. *)
Definition arrayGet {A} (i : nat) (images : list (option A)) : option A :=
  mjoin (images !! i).

(** [images[i] = v]: a write past the end grows the array, the slots in
    between reading as [undefined]. *)
Definition arraySet {A} (i : nat) (v : option A) (images : list (option A))
  : list (option A) :=
  if decide (i < length images) then <[i:=v]> images
  else images ++ replicate (i - length images) None ++ [v].

(** [[images[index], images[newIndex]] = [images[newIndex], images[index]]]:
    both reads happen before the two writes. *)
Definition swapSlots {A} (index newIndex : nat) (images : list (option A))
  : list (option A) :=
  let first := arrayGet newIndex images in
  let second := arrayGet index images in
  arraySet newIndex second (arraySet index first images).

(** [moveImage(index, direction)], with [index] an array index as the
    markup passes it.  The result is [None] when the array returned by the
    updater holds [undefined]: it is no list of entries any more, and the
    next render, which reads [img.id] of every slot, throws. *)
Definition moveImage (index : nat) (direction : Direction) (s : State)
  : option State :=
  if match direction with
     | up => bool_decide (index = 0)
     | down => bool_decide (index + 1 = length (selectedImages s))
     end
  then Some s
  else
    let newIndex := match direction with
                    | up => index - 1
                    | down => index + 1
                    end in
    images ← mapM (λ slot, slot) (swapSlots index newIndex (Some <$> selectedImages s));
    Some (setSelectedImages (λ _, images) s).

(** *** The handlers as wired in the markup

    One step of the component: a user event runs its handler.
    [generatePDF] is taken as one step, from the click to the point where
    the handler is done or waits forever. *)
Inductive Step : State * Browser → State * Browser → Prop :=
  | step_files files s b :
      Step (s, b) (handleFiles files s b)
  | step_drop files s b :
      Step (s, b) (handleDrop files s b)
  | step_dragStart imageId s b :
      Step (s, b) (handleDragStart imageId s, b)
  | step_dropImage targetImageId s b :
      Step (s, b) (handleDropImage targetImageId s, b)
  | step_remove i s b :
      Step (s, b) (removeImage i s b)
  | step_clear s b :
      Step (s, b) (clearAll s b)
  | step_move index direction s s' b :
      moveImage index direction s = Some s' → Step (s, b) (s', b)
  | step_orientation o s b :
      Step (s, b)
        (setPageSettings
           (λ prev, {| orientation := o; margin := margin prev;
                       quality := quality prev |}) s, b)
  | step_margin m s b :
      Step (s, b)
        (setPageSettings
           (λ prev, {| orientation := orientation prev; margin := m;
                       quality := quality prev |}) s, b)
  | step_quality q s b :
      Step (s, b)
        (setPageSettings
           (λ prev, {| orientation := orientation prev; margin := margin prev;
                       quality := q |}) s, b)
  | step_generate s b :
      Step (s, b) ((generatePDF s b).1.2, (generatePDF s b).2).

(** What holds of the collection and its previews in every state the
    component reaches: at most 50 entries, each of an accepted type, each
    with a live preview URL. *)
Definition wellFormed (sb : State * Browser) : Prop :=
  length (selectedImages sb.1) ≤ 50
  ∧ Forall (λ img, type (file img) ∈ accepted ∧ url img ∈ objectURLs sb.2)
      (selectedImages sb.1).

End Component.

(** Does an entry with id [a] sit directly in front of one with id [b]? *)
Fixpoint immediatelyBefore (a b : string) (ids : list string) : bool :=
  match ids with
  | i :: (j :: _) as rest =>
      (bool_decide (i = a) && bool_decide (j = b)) || immediatelyBefore a b rest
  | _ => false
  end.

Arguments PageSettings : clear implicits.
Arguments Placed : clear implicits.
Arguments jsPDF : clear implicits.
Arguments Browser : clear implicits.
Arguments State : clear implicits.
Arguments Outcome : clear implicits.

End ImgToPdf.

Module PdfSplit.

(** A JavaScript string: its UTF-16 code units.  The page field is free
    text, and [\s] and [trim] reach beyond ASCII. *)
Abbreviation jsstring := (list N).

(** An ASCII literal as a JavaScript string. *)
Definition lit (s : string) : jsstring :=
  Ascii.N_of_ascii <$> String.list_ascii_of_string s.

(** *** Regular expressions

    The constructs the page pattern uses: character classes, sequence,
    alternation (for [?]) and iteration.  [Void] only arises as a
    derivative. *)
Inductive regex :=
  | Void
  | Eps
  | Class (p : N → bool)
  | Seq (r1 r2 : regex)
  | Alt (r1 r2 : regex)
  | Star (r : regex).

(** [r+] and [r?] *)
Definition Plus (r : regex) : regex := Seq r (Star r).
Definition Opt (r : regex) : regex := Alt r Eps.
Definition Chr (c : N) : regex := Class (N.eqb c).

(** Does the pattern match the empty string? *)
Fixpoint nullable (r : regex) : bool :=
  match r with
  | Void => false
  | Eps => true
  | Class _ => false
  | Seq r1 r2 => nullable r1 && nullable r2
  | Alt r1 r2 => nullable r1 || nullable r2
  | Star _ => true
  end.

(** What is left of the pattern after the code unit [c]. *)
Fixpoint deriv (c : N) (r : regex) : regex :=
  match r with
  | Void => Void
  | Eps => Void
  | Class p => if p c then Eps else Void
  | Seq r1 r2 =>
      if nullable r1 then Alt (Seq (deriv c r1) r2) (deriv c r2)
      else Seq (deriv c r1) r2
  | Alt r1 r2 => Alt (deriv c r1) (deriv c r2)
  | Star r1 => Seq (deriv c r1) (Star r1)
  end.

(** [/^r$/.test(s)]: the whole string matches. *)
Fixpoint test (r : regex) (s : jsstring) : bool :=
  match s with
  | [] => nullable r
  | c :: s' => test (deriv c r) s'
  end.

(** What it means for a string to match a pattern. *)
Inductive Matches : regex → jsstring → Prop :=
  | M_Eps : Matches Eps []
  | M_Class p c : p c = true → Matches (Class p) [c]
  | M_Seq r1 r2 s1 s2 :
      Matches r1 s1 → Matches r2 s2 → Matches (Seq r1 r2) (s1 ++ s2)
  | M_Alt_l r1 r2 s : Matches r1 s → Matches (Alt r1 r2) s
  | M_Alt_r r1 r2 s : Matches r2 s → Matches (Alt r1 r2) s
  | M_Star_nil r : Matches (Star r) []
  | M_Star_app r s1 s2 :
      Matches r s1 → Matches (Star r) s2 → Matches (Star r) (s1 ++ s2).

(** [\d]: [0-9] *)
Definition digit (c : N) : bool := (48 <=? c)%N && (c <=? 57)%N.

(** [\s], which is also what [trim] strips: WhiteSpace and LineTerminator. *)
Definition space (c : N) : bool :=
  bool_decide (c ∈ [9; 10; 11; 12; 13; 32; 160; 5760; 8232; 8233; 8239;
                    8287; 12288; 65279]%N)
  || ((8192 <=? c)%N && (c <=? 8202)%N).

Definition comma : N := 44.
Definition hyphen : N := 45.

(** [\d+(-\d+)?] *)
Definition pageItem : regex :=
  Seq (Plus (Class digit)) (Opt (Seq (Chr hyphen) (Plus (Class digit)))).

(** [/^(\d+(-\d+)?)(,\s*\d+(-\d+)?)*$/] *)
Definition pageRegex : regex :=
  Seq pageItem (Star (Seq (Chr comma) (Seq (Star (Class space)) pageItem))).

(** No code unit of the string is white space. *)
Definition spaceless (s : jsstring) : Prop := Forall (λ c, space c = false) s.

(** [s.replace(/\s/g, '')] *)
Definition stripSpaces (s : jsstring) : jsstring :=
  filter (λ c, space c = false) s.

Fixpoint trimStart (s : jsstring) : jsstring :=
  match s with
  | [] => []
  | c :: s' => if space c then trimStart s' else s
  end.

(** [s.trim()] *)
Definition trim (s : jsstring) : jsstring :=
  reverse (trimStart (reverse (trimStart s))).

(** [s.replace(pat, rep)] with a string pattern: the first occurrence. *)
Fixpoint replaceFirst (pat rep s : jsstring) : jsstring :=
  if bool_decide (pat `prefix_of` s) then rep ++ drop (length pat) s
  else match s with
       | [] => []
       | c :: s' => c :: replaceFirst pat rep s'
       end.

Record File := { name : jsstring; type : string }.

(** The hooks of [PdfSplit]. *)
Record State := {
  selectedFile : option File;
  pages : jsstring;
  loading : bool;
  error : option string;
  success : option string;
  fileName : jsstring
}.

(** The multipart body: [formData.append("file", ...)], [("pages", ...)]. *)
Record FormData := { file_field : File; pages_field : jsstring }.

(** What the two awaits of the [try] block give: [fetch] rejects with
    [err.message]; or it yields a response with its [ok] flag, whose body,
    when [ok] is set, [response.blob()] reads; or it yields an ok response
    and [response.blob()] rejects with [err.message]. *)
Inductive FetchResult :=
  | Rejects (message : string)
  | Responds (ok : bool)
  | BlobRejects (message : string).

(** What the handler does to the outside. *)
Inductive Effect :=
  | Post (target : string) (body : FormData)
  | Download (filename : jsstring).

Definition setError (e : option string) (s : State) : State :=
  {| selectedFile := selectedFile s; pages := pages s; loading := loading s;
     error := e; success := success s; fileName := fileName s |}.

Definition setSuccess (m : option string) (s : State) : State :=
  {| selectedFile := selectedFile s; pages := pages s; loading := loading s;
     error := error s; success := m; fileName := fileName s |}.

Definition setLoading (l : bool) (s : State) : State :=
  {| selectedFile := selectedFile s; pages := pages s; loading := l;
     error := error s; success := success s; fileName := fileName s |}.

(** [a || b] on strings: the empty string is falsy. *)
Definition orElse {A} (a b : list A) : list A :=
  match a with [] => b | _ => a end.

Definition endpoint : string := "https://sharp-tools-react.onrender.com/split".

Definition invalidFormat : string :=
  "Invalid page format. Use commas for separate pages and hyphens for ranges (e.g., 1,3-5,8).".

Definition handleSplit (fetch : FormData → FetchResult) (s : State)
  : State * list Effect :=
  match selectedFile s with
  | None => (setError (Some "Please select a PDF file.") s, [])
  | Some f =>
      if bool_decide (trim (pages s) = []) then
        (setError (Some "Please enter pages to extract (comma-separated or ranges like 1-5).") s, [])
      else if negb (test pageRegex (stripSpaces (pages s))) then
        (setError (Some invalidFormat) s, [])
      else
        let s1 := setSuccess None (setError None (setLoading true s)) in
        let body := {| file_field := f; pages_field := pages s |} in
        match fetch body with
        | Responds true =>
            let download :=
              lit "split-"
              ++ orElse (replaceFirst (lit ".pdf") [] (fileName s)) (lit "document")
              ++ lit ".pdf" in
            (setLoading false
               (setSuccess (Some "PDF successfully split and downloaded!") s1),
             [Post endpoint body; Download download])
        | Responds false =>
            (setLoading false (setError (Some "Failed to split PDF") s1),
             [Post endpoint body])
        | Rejects m | BlobRejects m =>
            (setLoading false
               (setError (Some (if bool_decide (m = "")
                                then "Something went wrong while processing the PDF"
                                else m)) s1),
             [Post endpoint body])
        end
  end.

(** *** handleFileChange, handleDrop, handlePagesChange, handleReset *)

Definition setSelectedFile (f : option File) (s : State) : State :=
  {| selectedFile := f; pages := pages s; loading := loading s;
     error := error s; success := success s; fileName := fileName s |}.

Definition setPages (p : jsstring) (s : State) : State :=
  {| selectedFile := selectedFile s; pages := p; loading := loading s;
     error := error s; success := success s; fileName := fileName s |}.

Definition setFileName (n : jsstring) (s : State) : State :=
  {| selectedFile := selectedFile s; pages := pages s; loading := loading s;
     error := error s; success := success s; fileName := n |}.

(** [files && files[0]]: the first file of a non-null list, if any. *)
Definition firstFile (files : option (list File)) : option File :=
  files ≫= head.

Definition handleFileChange (files : option (list File)) (s : State) : State :=
  let s1 := setSuccess None (setError None s) in
  match firstFile files with
  | None => s1
  | Some f =>
      if bool_decide (type f = "application/pdf")
      then setFileName (name f) (setSelectedFile (Some f) s1)
      else setError (Some "Please upload a PDF file only.") s1
  end.

Definition handleDrop (files : option (list File)) (s : State) : State :=
  match firstFile files with
  | None => s
  | Some f =>
      if bool_decide (type f = "application/pdf")
      then setSuccess None
             (setError None (setFileName (name f) (setSelectedFile (Some f) s)))
      else setError (Some "Please upload a PDF file only.") s
  end.

Definition handlePagesChange (value : jsstring) (s : State) : State :=
  setError None (setPages value s).

Definition handleReset (s : State) : State :=
  setFileName []
    (setSuccess None (setError None (setPages [] (setSelectedFile None s)))).

(** The hooks at mount. *)
Definition mounted : State :=
  {| selectedFile := None; pages := []; loading := false; error := None;
     success := None; fileName := [] |}.

(** One step of the split form: a user event runs its handler. *)
Inductive Step : State → State → Prop :=
  | step_fileChange files s : Step s (handleFileChange files s)
  | step_drop files s : Step s (handleDrop files s)
  | step_pagesChange value s : Step s (handlePagesChange value s)
  | step_split fetch s : Step s (handleSplit fetch s).1
  | step_reset s : Step s (handleReset s).

(** The selected file, when there is one, is a PDF and [fileName] is its
    name. *)
Definition selectionInSync (s : State) : Prop :=
  match selectedFile s with
  | Some f => type f = "application/pdf" ∧ fileName s = name f
  | None => fileName s = []
  end.

(** The name under which [handleSplit] offers the result. *)
Definition downloadName (fileName : jsstring) : jsstring :=
  lit "split-"
  ++ orElse (replaceFirst (lit ".pdf") [] fileName) (lit "document")
  ++ lit ".pdf".

(** *** The grammar of the split endpoint

    [PAGESET := PAGE (',' PAGE)*], [PAGE := NUMBER ('-' NUMBER)?], with
    [NUMBER] one or more decimal digits. *)

Definition NUMBER (s : jsstring) : Prop :=
  s ≠ [] ∧ Forall (λ c, digit c = true) s.

Definition PAGE (s : jsstring) : Prop :=
  NUMBER s ∨ ∃ a b, s = a ++ hyphen :: b ∧ NUMBER a ∧ NUMBER b.

Definition PAGESET (s : jsstring) : Prop :=
  ∃ p rest, s = p ++ concat ((λ q, comma :: q) <$> rest)
            ∧ PAGE p ∧ Forall PAGE rest.

End PdfSplit.

(** ** Sample inputs

    Concrete files, browsers and states on which the handlers are run. *)
Module Samples.
Import ImgToPdf.

Definition png : File := {| name := "scan.png"; type := "image/png" |}.
Definition jpeg : File := {| name := "photo.jpg"; type := "image/jpeg" |}.
Definition gif : File := {| name := "anim.gif"; type := "image/gif" |}.
Definition txt : File := {| name := "notes.txt"; type := "text/plain" |}.

(** Three different draws of [Math.random().toString(36)]. *)
Definition draws (k : nat) : string :=
  nth k ["0.4fzyo82mvyr"; "0.b8h3k1w9c2d"; "0.zq7m5n0x1va"] "0.7d2kq04ls6p".

(** [Math.random()] returning [0.5] every time: [(0.5).toString(36)] is ["0.i"]. *)
Definition half (k : nat) : string := "0.i".

(** Intrinsic sizes: 100x200, 400x100 and 300x300 for the first three
    previews; any other image never loads. *)
Definition sizes (u : string) : option (Q * Q) :=
  if bool_decide (u = "blob:0") then Some (100, 200)%Q
  else if bool_decide (u = "blob:1") then Some (400, 100)%Q
  else if bool_decide (u = "blob:2") then Some (300, 300)%Q
  else None.

Definition browser (random : nat → string) : Browser Q :=
  {| random36 := random; drawn := 0;
     blobURL := λ k, "blob:" +:+ pretty k; minted := 0; objectURLs := [];
     onload := sizes;
     a4 := λ o, match o with
                | portrait => (210, 297)%Q
                | landscape => (297, 210)%Q
                end;
     now := 1700000000000%N; addImageRaises := λ _, false;
     saveThrows := false; downloads := [] |}.

(** The same browser, except that [pdf.addImage] raises on the image
    whose source is [u]. *)
Definition rejecting (u : string) (random : nat → string) : Browser Q :=
  {| random36 := random; drawn := 0;
     blobURL := λ k, "blob:" +:+ pretty k; minted := 0; objectURLs := [];
     onload := sizes;
     a4 := λ o, match o with
                | portrait => (210, 297)%Q
                | landscape => (297, 210)%Q
                end;
     now := 1700000000000%N;
     addImageRaises := λ placed, bool_decide (src placed = u);
     saveThrows := false; downloads := [] |}.

(** The component as it is mounted. *)
Definition initial : State Q :=
  {| selectedImages := []; status := None; loading := false;
     draggedImage := None;
     pageSettings := {| orientation := portrait; margin := 10%Q;
                        quality := 100%Q |} |}.

Definition entry (f : File) (u i : string) : ImageData :=
  {| file := f; url := u; id := i |}.

(** The three entries of the sample collection. *)
Definition three : list ImageData :=
  [entry png "blob:0" "4fzyo82mv"; entry jpeg "blob:1" "b8h3k1w9c";
   entry gif "blob:2" "zq7m5n0x1"].

Definition withImages (images : list ImageData) : State Q :=
  setSelectedImages (λ _, images) initial.

(** A selected PDF and a page field for [handleSplit]. *)
Definition report : PdfSplit.File :=
  {| PdfSplit.name := PdfSplit.lit "report.pdf"; PdfSplit.type := "application/pdf" |}.

Definition splitting (pages : string) : PdfSplit.State :=
  {| PdfSplit.selectedFile := Some report;
     PdfSplit.pages := PdfSplit.lit pages;
     PdfSplit.loading := false; PdfSplit.error := None;
     PdfSplit.success := None;
     PdfSplit.fileName := PdfSplit.lit "report.pdf" |}.

(** A server that answers every request with success. *)
Definition server (body : PdfSplit.FormData) : PdfSplit.FetchResult :=
  PdfSplit.Responds true.

End Samples.

(** ** The collection manager *)
Module ImgToPdfFacts.
Import ImgToPdf.

Section Facts.
Context {num : Type} `{JSNumber num}.
Implicit Types (s : State num) (b : Browser num) (pdf : jsPDF num).
Implicit Types (images : list ImageData) (batch : list File).

(** *** Intake *)

Lemma toImageData_files batch b : file <$> (toImageData batch b).1 = batch.
Proof.
  revert b. induction batch as [|f rest IH]; intros b; [done|].
  cbn [toImageData]. unfold createObjectURL, generateId.
  match goal with |- context [toImageData rest ?b'] =>
    specialize (IH b'); destruct (toImageData rest b') as [tl b3] end.
  cbn in *. by rewrite IH.
Qed.

Lemma toImageData_objectURLs batch b :
  ∃ urls, objectURLs (toImageData batch b).2 = objectURLs b ++ urls
          ∧ urls = url <$> (toImageData batch b).1.
Proof.
  revert b. induction batch as [|f rest IH]; intros b.
  - exists []. by rewrite app_nil_r.
  - cbn [toImageData]. unfold createObjectURL, generateId.
    match goal with |- context [toImageData rest ?b'] =>
      destruct (IH b') as (urls & Hu & ->); destruct (toImageData rest b') as [tl b3] end.
    cbn in *. eexists. split; [|done]. rewrite Hu. by rewrite <-app_assoc.
Qed.

Lemma validImages_nil_length batch :
  length (validImages batch) = 0 ↔ validImages batch = [].
Proof. destruct (validImages batch); naive_solver. Qed.

(** What [handleFiles] does with a batch, by the two guards. *)
Lemma handleFiles_cases batch s b :
  let valid := validImages batch in
  (valid = []
     ∧ handleFiles (Some batch) s b =
         (setStatus "Please upload valid images (JPEG, PNG, WebP, GIF)" error s, b))
  ∨ (valid ≠ [] ∧ 50 < length valid + length (selectedImages s)
     ∧ handleFiles (Some batch) s b =
         (setStatus "Maximum 50 images allowed" error s, b))
  ∨ (valid ≠ [] ∧ length valid + length (selectedImages s) ≤ 50
     ∧ handleFiles (Some batch) s b =
         (setStatus (pretty (length (toImageData valid b).1) +:+ " image(s) added")
            success
            (setSelectedImages (λ prev, prev ++ (toImageData valid b).1) s),
          (toImageData valid b).2)).
Proof.
  intros valid. unfold handleFiles. fold valid.
  case_bool_decide as Hz.
  - left. by apply validImages_nil_length in Hz.
  - right. assert (valid ≠ []) by (intros Hv; apply Hz; by rewrite Hv).
    case_bool_decide; [left | right]; split_and!; try done; try lia.
    by destruct (toImageData valid b).
Qed.

(** C5. A batch whose valid subset is non-empty and fits under the cap of
    50 is appended to the tail of the collection: as many new entries as
    valid files, carrying those files in their order within the batch; the
    entries already present keep their place, and a success notification
    reports the count added.  The preview URLs of the new entries are the
    ones the browser registers during the call. *)
Theorem handleFiles_appends batch s b :
  validImages batch ≠ [] →
  length (selectedImages s) + length (validImages batch) ≤ 50 →
  ∃ added,
    selectedImages (handleFiles (Some batch) s b).1 = selectedImages s ++ added
    ∧ length added = length (validImages batch)
    ∧ file <$> added = validImages batch
    ∧ validImages batch `sublist_of` batch
    ∧ status (handleFiles (Some batch) s b).1 =
        Some {| message := pretty (length (validImages batch)) +:+ " image(s) added";
                severity := success |}
    ∧ objectURLs (handleFiles (Some batch) s b).2
      = objectURLs b ++ (url <$> added).
Proof.
  intros Hne Hcap.
  destruct (handleFiles_cases batch s b) as [[? _]|[(_ & ? & _)|(_ & _ & ->)]];
    [done | lia |].
  exists (toImageData (validImages batch) b).1. cbn.
  pose proof (toImageData_files (validImages batch) b) as Hf.
  assert (length (toImageData (validImages batch) b).1
          = length (validImages batch)) as Hl.
  { by rewrite <-Hf at 2; rewrite length_fmap. }
  destruct (toImageData_objectURLs (validImages batch) b) as (urls & Hu & ->).
  split_and!; [done | done | done | apply sublist_filter | by rewrite Hl | done].
Qed.

(** C6. A batch is rejected (an error notification, the collection as it
    was) exactly when none of its files passes the type filter or the
    collection with the valid files would exceed 50; a rejected batch
    leaves the collection and the browser untouched. *)
Theorem handleFiles_rejects_iff batch s b :
  let s' := (handleFiles (Some batch) s b).1 in
  let b' := (handleFiles (Some batch) s b).2 in
  let over := validImages batch = []
              ∨ 50 < length (selectedImages s) + length (validImages batch) in
  (((∃ m, status s' = Some {| message := m; severity := error |})
    ∧ selectedImages s' = selectedImages s) ↔ over)
  ∧ (over → selectedImages s' = selectedImages s ∧ b' = b).
Proof.
  intros s' b' over. subst s' b' over.
  destruct (handleFiles_cases batch s b)
    as [[Hv ->]|[(Hv & Hc & ->)|(Hv & Hc & ->)]]; cbn.
  - split; [split; eauto | eauto].
  - split; [split; [right; lia | eauto] | eauto].
  - split.
    + split; [intros [[m [=]] _] | intros [?|?]; [done | lia]].
    + intros [?|?]; [done | lia].
Qed.

(** *** Drag relocation *)

Lemma findIndex_Some i images k :
  findIndex i images = Some k →
  ∃ item, images !! k = Some item ∧ id item = i
          ∧ ∀ j y, images !! j = Some y → j < k → id y ≠ i.
Proof.
  unfold findIndex. intros ([k' item] & Hf & ->)%fmap_Some.
  apply list_find_Some in Hf as (? & ? & ?). eauto.
Qed.

Lemma findIndex_None i images :
  findIndex i images = None ↔ i ∉ id <$> images.
Proof.
  unfold findIndex. rewrite fmap_None, list_find_None, Forall_forall.
  rewrite list_elem_of_fmap. split.
  - intros Hall (img & -> & Hin). by apply (Hall img).
  - intros Hno img Hin Heq. apply Hno. by exists img.
Qed.

Lemma splice_in_Permutation {A} k (item : A) (l : list A) :
  splice_in k item l ≡ₚ item :: l.
Proof.
  unfold splice_in. rewrite <-Permutation_middle. by rewrite take_drop.
Qed.

Lemma splice_in_lookup {A} k (item : A) (l : list A) :
  k ≤ length l → splice_in k item l !! k = Some item.
Proof.
  intros Hk. unfold splice_in.
  rewrite lookup_app_r by (rewrite length_take; lia).
  rewrite length_take. by replace (k - k `min` length l) with 0 by lia.
Qed.

Lemma splice_in_lookup_after {A} k (item : A) (l : list A) :
  k ≤ length l → splice_in k item l !! S k = l !! k.
Proof.
  intros Hk. unfold splice_in.
  rewrite lookup_app_r by (rewrite length_take; lia).
  rewrite length_take. replace (S k - k `min` length l) with 1 by lia.
  change ((item :: drop k l) !! 1) with (drop k l !! 0).
  rewrite lookup_drop. f_equal. lia.
Qed.

Lemma splice_in_lookup_before {A} k j (item : A) (l : list A) :
  k ≤ length l → j < k → splice_in k item l !! j = l !! j.
Proof.
  intros Hk Hj. unfold splice_in.
  rewrite lookup_app_l by (rewrite length_take; lia).
  by apply lookup_take_lt.
Qed.

Lemma handleDropImage_images s source target :
  selectedImages (handleDropImage target (handleDragStart source s)) =
    if decide (source = "" ∨ source = target) then selectedImages s
    else relocate source target (selectedImages s).
Proof.
  unfold handleDropImage, handleDragStart. cbn.
  case_bool_decide as H1; case_bool_decide as H2; case_decide as H3;
    cbn; try done.
  all: try (exfalso; apply H3; tauto).
  all: try (exfalso; apply H3; right; congruence).
  all: try (exfalso; destruct H3; [tauto | congruence]).
Qed.

Lemma relocate_found source target images di ti :
  findIndex source images = Some di → findIndex target images = Some ti →
  ∃ item, images !! di = Some item ∧ id item = source
          ∧ relocate source target images = splice_in ti item (delete di images).
Proof.
  intros Hd Ht. unfold relocate. rewrite Hd, Ht.
  apply findIndex_Some in Hd as (item & Hl & Hid & _).
  exists item. by rewrite Hl.
Qed.

Lemma relocate_Permutation source target images :
  relocate source target images ≡ₚ images.
Proof.
  unfold relocate.
  destruct (findIndex source images) as [di|] eqn:Hd; [|done].
  destruct (findIndex target images) as [ti|] eqn:Ht; [|done].
  apply findIndex_Some in Hd as (item & Hl & _). rewrite Hl.
  rewrite splice_in_Permutation. symmetry. by apply delete_Permutation.
Qed.

(** C4, as the handler has it.  Dropping the dragged entry [source] on
    [target] takes the source out and puts it back at the index the target
    had before: directly in front of the target when the source came after
    it, directly behind the target when the source came before it.  The
    collection is unchanged when source and target are equal, when either
    id is absent, or when the source id is the empty string.  In every case
    the entries, hence their ids, are permuted and the length is kept. *)
Theorem handleDropImage_relocates s source target :
  let prev := selectedImages s in
  let next := selectedImages (handleDropImage target (handleDragStart source s)) in
  (next ≡ₚ prev ∧ id <$> next ≡ₚ id <$> prev ∧ length next = length prev)
  ∧ (source = target ∨ source = "" ∨ source ∉ id <$> prev ∨ target ∉ id <$> prev →
     next = prev)
  ∧ (source ≠ "" → source ≠ target →
     ∀ di ti, findIndex source prev = Some di → findIndex target prev = Some ti →
     ∃ item, prev !! di = Some item ∧ id item = source
       ∧ next = splice_in ti item (delete di prev)
       ∧ next !! ti = Some item
       ∧ (ti < di → next !! S ti = prev !! ti)
       ∧ (di < ti → next !! (ti - 1) = prev !! ti)).
Proof.
  cbv zeta. set (prev := selectedImages s).
  set (next := selectedImages (handleDropImage target (handleDragStart source s))).
  assert (next ≡ₚ prev) as Hperm.
  { subst next. rewrite handleDropImage_images.
    case_decide; [done | apply relocate_Permutation]. }
  subst prev.
  split_and!.
  - done.
  - by rewrite Hperm.
  - by rewrite Hperm.
  - subst next. rewrite handleDropImage_images.
    case_decide as Hg; [done|]. unfold relocate.
    intros [?|[?|[Hs|Ht]]]; [tauto | tauto | |].
    + apply findIndex_None in Hs. by rewrite Hs.
    + apply findIndex_None in Ht. rewrite Ht. by destruct (findIndex source _).
  - intros Hne Hst di ti Hd Ht. subst next. rewrite handleDropImage_images.
    rewrite decide_False by tauto.
    destruct (relocate_found _ _ _ _ _ Hd Ht) as (item & Hl & Hid & ->).
    exists item.
    apply findIndex_Some in Ht as (titem & Hlt & Htid & _).
    pose proof (lookup_lt_Some _ _ _ Hl) as Hdl.
    pose proof (lookup_lt_Some _ _ _ Hlt) as Htl.
    pose proof (length_delete (selectedImages s) di ltac:(eauto)) as Hlen.
    split_and!; [done | done | done | | |].
    + apply splice_in_lookup. lia.
    + intros Hlt'. rewrite splice_in_lookup_after by lia.
      by apply list_lookup_delete_lt.
    + intros Hlt'. rewrite splice_in_lookup_before by lia.
      rewrite list_lookup_delete_ge by lia. f_equal. lia.
Qed.

(** *** Preview handles *)

Lemma filter_none {A} (P : A → Prop) `{!∀ x, Decision (P x)} (l : list A) :
  (∀ x, x ∈ l → ¬ P x) → filter P l = [].
Proof.
  induction l as [|x l IH]; intros Hl; [done|].
  rewrite filter_cons_False by (apply Hl; left).
  apply IH. intros y Hy. apply Hl. by right.
Qed.

Lemma released_same b : released b b = [].
Proof. apply filter_none. intros u Hu Hn. by apply Hn. Qed.

(** C2, as the handlers have it.  Neither [removeImage] nor [clearAll]
    calls [URL.revokeObjectURL]: removing an entry takes the entries with
    that id out of the collection, clearing empties it, and both release no
    preview handle; every handle that was live stays live. *)
Theorem removeImage_clearAll_release_nothing s b i :
  (selectedImages (removeImage i s b).1
     = filter (λ img, id img ≠ i) (selectedImages s)
   ∧ released b (removeImage i s b).2 = []
   ∧ objectURLs (removeImage i s b).2 = objectURLs b)
  ∧ (length (selectedImages (clearAll s b).1) = 0
     ∧ released b (clearAll s b).2 = []
     ∧ objectURLs (clearAll s b).2 = objectURLs b).
Proof.
  unfold removeImage, clearAll. cbn.
  split; (split_and!; [|apply released_same|done]); [|done].
  by case_bool_decide.
Qed.

(** *** Assembly *)

(** C7. On an empty collection [generatePDF] only posts the error
    notification: no jsPDF object is constructed, no page is added and
    nothing is saved; the browser is left as it was. *)
Theorem generatePDF_empty s b :
  selectedImages s = [] →
  generatePDF s b = (NoInput, setStatus "No images selected" error s, b)
  ∧ assembled (generatePDF s b).1.1 = None
  ∧ status (generatePDF s b).1.2
      = Some {| message := "No images selected"; severity := error |}
  ∧ downloads (generatePDF s b).2 = downloads b.
Proof. intros Hs. unfold generatePDF. by rewrite Hs. Qed.

(** C10. [generatePDF] changes [status] and [loading] only: on every path
    (no input, a load that never completes, a failing save, success) the
    collection and the page settings come out as they went in, and so do
    the live preview handles. *)
Theorem generatePDF_frame s b :
  selectedImages (generatePDF s b).1.2 = selectedImages s
  ∧ pageSettings (generatePDF s b).1.2 = pageSettings s
  ∧ objectURLs (generatePDF s b).2 = objectURLs b.
Proof.
  unfold generatePDF. case_bool_decide; [done|].
  destruct (forLoop _ _ _ _ _); [|done].
  by destruct (saveThrows b).
Qed.

(** C8. Two runs of [generatePDF] that differ only in the [quality]
    setting end with the same outcome (the same document under the same
    file name), the same browser, and states that agree on everything but
    [quality]. *)
Theorem quality_noninterference s b q1 q2 :
  (generatePDF (withQuality q1 s) b).1.1 = (generatePDF (withQuality q2 s) b).1.1
  ∧ (generatePDF (withQuality q1 s) b).2 = (generatePDF (withQuality q2 s) b).2
  ∧ withQuality q2 (generatePDF (withQuality q1 s) b).1.2
    = (generatePDF (withQuality q2 s) b).1.2.
Proof.
  unfold generatePDF. cbn [selectedImages withQuality setPageSettings].
  case_bool_decide; [done|].
  assert (∀ q i images pdf,
    forLoop (pageSettings (withQuality q s)) b i images pdf
    = forLoop (pageSettings s) b i images pdf) as Hq.
  { intros q i images. revert i. induction images as [|img rest IH];
      intros i pdf; [done|].
    cbn [forLoop]. destruct (onload b (url img)) as [[w h]|]; [|done].
    by rewrite IH. }
  change {| selectedImages := selectedImages s; status := status s;
            loading := loading s; draggedImage := draggedImage s;
            pageSettings := {| orientation := orientation (pageSettings s);
                               margin := margin (pageSettings s);
                               quality := q1 |} |} with (withQuality q1 s).
  change {| selectedImages := selectedImages s; status := status s;
            loading := loading s; draggedImage := draggedImage s;
            pageSettings := {| orientation := orientation (pageSettings s);
                               margin := margin (pageSettings s);
                               quality := q2 |} |} with (withQuality q2 s).
  rewrite !Hq. cbn [pageSettings withQuality setPageSettings orientation].
  destruct (forLoop _ _ _ _ _); [|done].
  by destruct (saveThrows b).
Qed.

Lemma place_fitted (ps : PageSettings num) pdf img w h :
  place ps pdf img w h
  = fitted (pdfWidth pdf) (pdfHeight pdf) (margin ps) img w h.
Proof.
  unfold place, fitted, fitRatio, encoding.
  by rewrite (mul_comm (margin ps) two), (mul_comm w), (mul_comm h).
Qed.

Lemma encoding_png mime : encoding mime = PNG ↔ mime = "image/png".
Proof. unfold encoding. by case_bool_decide. Qed.

(** From the second iteration on, each entry adds one page behind those
    already there. *)
Lemma forLoop_later ps b W H' images :
  Forall (placeable (margin ps) b W H') images →
  ∀ i pdf, pdfWidth pdf = W → pdfHeight pdf = H' →
  ∃ pdf' new,
    forLoop ps b (S i) images pdf = Some pdf'
    ∧ pdfWidth pdf' = W ∧ pdfHeight pdf' = H'
    ∧ pages pdf' = pages pdf ++ new
    ∧ Forall2 (pageOf (margin ps) b W H') images new.
Proof.
  induction 1 as [|img rest (w & h & Hwh & Hadd) _ IH]; intros i pdf HW HH.
  - exists pdf, []. by rewrite app_nil_r.
  - cbn [forLoop]. rewrite bool_decide_true by lia. rewrite Hwh. cbv zeta.
    rewrite place_fitted. cbn [addPage pdfWidth pdfHeight].
    rewrite HW, HH, Hadd.
    set (pdf2 := addImage _ _).
    destruct (IH (S i) pdf2) as (pdf' & new & -> & HW' & HH' & Hp & Hnew);
      [done | done |].
    exists pdf', ([fitted W H' (margin ps) img w h] :: new).
    split_and!; [done | done | done | |].
    + rewrite Hp. unfold pages. cbn. by rewrite <-!app_assoc.
    + constructor; [|done]. by exists w, h.
Qed.

(** C1, as the handler has it.  For a non-empty collection in which every
    image loads and is taken by [pdf.addImage] without an exception, the
    loop of [generatePDF] finishes a document with one page per entry, in
    the order of the collection.  The page of an entry of intrinsic size
    [(w, h)] holds that image alone, scaled by
    [ratio = min((W - 2m)/w, (H - 2m)/h)] and placed at
    [x = (W - ratio*w)/2], [y = (H - ratio*h)/2], where [(W, H)] is the page
    size and [m] the margin; it is encoded as PNG exactly when the file's
    type is image/png, as JPEG otherwise.  Unless [pdf.save] raises, this is
    the document that is downloaded. *)
Theorem generatePDF_pages s b :
  let W := (a4 b (orientation (pageSettings s))).1 in
  let H := (a4 b (orientation (pageSettings s))).2 in
  selectedImages s ≠ [] →
  Forall (placeable (margin (pageSettings s)) b W H) (selectedImages s) →
  ∃ pdf,
    assembled (generatePDF s b).1.1 = Some pdf
    ∧ length (pages pdf) = length (selectedImages s)
    ∧ Forall2
        (λ img page, ∃ w h,
           onload b (url img) = Some (w, h)
           ∧ page = [fitted W H (margin (pageSettings s)) img w h])
        (selectedImages s) (pages pdf)
    ∧ (∀ mime, encoding mime = PNG ↔ mime = "image/png")
    ∧ (saveThrows b = false →
       ∃ filename, (generatePDF s b).1.1 = Saved filename pdf
                   ∧ downloads (generatePDF s b).2 = downloads b ++ [(filename, pdf)]).
Proof.
  intros W H' Hne Hload. unfold generatePDF.
  destruct Hload as [|img rest (w & h & Hwh & Hadd) Hrest]; [done|].
  rewrite bool_decide_false by done.
  cbn [forLoop]. rewrite bool_decide_false by lia. rewrite Hwh. cbv zeta.
  rewrite place_fitted. cbn [new_jsPDF pdfWidth pdfHeight].
  fold W H'. rewrite Hadd.
  set (pdf1 := addImage _ _).
  destruct (forLoop_later (pageSettings s) b W H' rest Hrest 0 pdf1)
    as (pdf' & new & -> & HW & HH & Hp & Hnew); [done | done |].
  assert (Forall2 (pageOf (margin (pageSettings s)) b W H') (img :: rest)
            (pages pdf')) as Hall.
  { rewrite Hp. unfold pages. cbn. constructor; [|done]. by exists w, h. }
  exists pdf'. split_and!.
  - by destruct (saveThrows b).
  - symmetry. by eapply Forall2_length.
  - done.
  - apply encoding_png.
  - intros ->. eexists. cbn. done.
Qed.

End Facts.
End ImgToPdfFacts.

(** ** The page pattern of the split form *)
Module PdfSplitFacts.
Import PdfSplit.

Implicit Types (r : regex) (s : jsstring) (c : N).

Create HintDb regex.
#[local] Hint Constructors Matches : regex.

(** ** Inversion of [Matches] *)

Lemma Matches_Void s : Matches Void s ↔ False.
Proof. split; [inversion 1 | done]. Qed.

Lemma Matches_Eps s : Matches Eps s ↔ s = [].
Proof. split; [by inversion 1 | intros ->; constructor]. Qed.

Lemma Matches_Class p s : Matches (Class p) s ↔ ∃ c, s = [c] ∧ p c = true.
Proof.
  split; [inversion 1; eauto | intros (c & -> & ?); by constructor].
Qed.

Lemma Matches_Seq r1 r2 s :
  Matches (Seq r1 r2) s ↔ ∃ s1 s2, s = s1 ++ s2 ∧ Matches r1 s1 ∧ Matches r2 s2.
Proof.
  split; [inversion 1; eauto | intros (s1 & s2 & -> & ? & ?); by constructor].
Qed.

Lemma Matches_Alt r1 r2 s :
  Matches (Alt r1 r2) s ↔ Matches r1 s ∨ Matches r2 s.
Proof.
  split; [inversion 1; eauto | intros [?|?]; eauto with regex].
Qed.

(** A non-empty match of [r*] starts with a non-empty match of [r]. *)
Lemma Matches_Star_cons r c s :
  Matches (Star r) (c :: s) →
  ∃ s1 s2, s = s1 ++ s2 ∧ Matches r (c :: s1) ∧ Matches (Star r) s2.
Proof.
  intros Hm. remember (Star r) as r' eqn:Hr. remember (c :: s) as s' eqn:Hs.
  induction Hm as [| | | | | |r0 s1 s2 H1 _ H2 IH2]; try discriminate.
  injection Hr as ->. destruct s1 as [|c1 s1]; cbn in Hs.
  - by apply IH2.
  - injection Hs as -> <-. eauto.
Qed.

Lemma Matches_Star_concat r s :
  Matches (Star r) s ↔ ∃ l, s = concat l ∧ Forall (Matches r) l.
Proof.
  split.
  - intros Hm. remember (Star r) as r' eqn:Hr.
    induction Hm as [| | | | | |r0 s1 s2 H1 _ H2 IH2]; try discriminate.
    + by exists [].
    + injection Hr as ->. destruct IH2 as (l & -> & Hl); [done|].
      exists (s1 :: l). split; [done | by constructor].
  - intros (l & -> & Hl). induction Hl; cbn; eauto with regex.
Qed.

(** ** The matcher decides [Matches] *)

Lemma nullable_Matches r : nullable r = true ↔ Matches r [].
Proof.
  induction r as [| |p|r1 IH1 r2 IH2|r1 IH1 r2 IH2|r IH]; cbn.
  - by rewrite Matches_Void.
  - by rewrite Matches_Eps.
  - rewrite Matches_Class. split; [done | by intros (? & [=] & _)].
  - rewrite andb_true_iff, IH1, IH2, Matches_Seq. split.
    + intros [? ?]. by exists [], [].
    + intros (s1 & s2 & Hs & ? & ?). symmetry in Hs.
      apply app_eq_nil in Hs as [-> ->]. done.
  - by rewrite orb_true_iff, IH1, IH2, Matches_Alt.
  - split; [constructor | done].
Qed.

Lemma deriv_Matches r c s : Matches (deriv c r) s ↔ Matches r (c :: s).
Proof.
  revert s. induction r as [| |p|r1 IH1 r2 IH2|r1 IH1 r2 IH2|r IH];
    intros s; cbn [deriv].
  - by rewrite !Matches_Void.
  - rewrite Matches_Void, Matches_Eps. done.
  - rewrite Matches_Class. destruct (p c) eqn:Hp.
    + rewrite Matches_Eps. split; [intros ->; eauto | by intros (? & [= <- <-] & _)].
    + rewrite Matches_Void. split; [done | intros (? & [= <- _] & ?); congruence].
  - assert (Matches (Seq (deriv c r1) r2) s ↔
            ∃ s1 s2, s = s1 ++ s2 ∧ Matches r1 (c :: s1) ∧ Matches r2 s2) as Hl.
    { rewrite Matches_Seq. by setoid_rewrite IH1. }
    rewrite (Matches_Seq r1 r2).
    destruct (nullable r1) eqn:Hn.
    + rewrite Matches_Alt, Hl, IH2. apply nullable_Matches in Hn. split.
      * intros [(s1 & s2 & -> & ? & ?)|?]; [by exists (c :: s1), s2 | by exists [], (c :: s)].
      * intros ([|c1 s1] & s2 & Hs & ? & ?); cbn in Hs.
        -- right. by subst.
        -- left. injection Hs as -> ->. eauto.
    + rewrite Hl. split.
      * intros (s1 & s2 & -> & ? & ?). by exists (c :: s1), s2.
      * intros ([|c1 s1] & s2 & Hs & H1 & ?); cbn in Hs.
        -- apply nullable_Matches in H1. congruence.
        -- injection Hs as -> ->. eauto.
  - by rewrite !Matches_Alt, IH1, IH2.
  - rewrite Matches_Seq. setoid_rewrite IH. split.
    + intros (s1 & s2 & -> & ? & ?). by apply (M_Star_app r (c :: s1) s2).
    + apply Matches_Star_cons.
Qed.

Lemma test_Matches r s : test r s = true ↔ Matches r s.
Proof.
  revert r. induction s as [|c s IH]; intros r; cbn.
  - apply nullable_Matches.
  - by rewrite IH, deriv_Matches.
Qed.

(** ** The language of the page pattern *)

Lemma Matches_Chr c s : Matches (Chr c) s ↔ s = [c].
Proof.
  unfold Chr. rewrite Matches_Class. split.
  - by intros (c' & -> & ->%N.eqb_eq).
  - intros ->. exists c. by rewrite N.eqb_refl.
Qed.

Lemma Matches_Star_Class p s :
  Matches (Star (Class p)) s ↔ Forall (λ c, p c = true) s.
Proof.
  rewrite Matches_Star_concat. split.
  - intros (l & -> & Hl). induction Hl as [|x l Hx _ IH]; [done|].
    apply Matches_Class in Hx as (c & -> & Hc). by constructor.
  - intros Hs. exists ((λ c, [c]) <$> s). split.
    + induction s as [|c s IH]; [done|]. cbn. f_equal. apply IH.
      by inversion Hs.
    + apply Forall_fmap. eapply Forall_impl; [done|].
      intros c Hc. by constructor.
Qed.

Lemma Matches_Plus_digit s : Matches (Plus (Class digit)) s ↔ NUMBER s.
Proof.
  unfold Plus, NUMBER. rewrite Matches_Seq. split.
  - intros (s1 & s2 & -> & (c & -> & Hc)%Matches_Class & Hs%Matches_Star_Class).
    split; [done | by constructor].
  - intros [Hne Hs]. destruct s as [|c s]; [done|].
    inversion Hs as [|?? Hc Hs']; subst. exists [c], s.
    split_and!; [done | by constructor | by apply Matches_Star_Class].
Qed.

Lemma Matches_pageItem s : Matches pageItem s ↔ PAGE s.
Proof.
  unfold pageItem, Opt, PAGE. rewrite Matches_Seq. split.
  - intros (a & t & -> & Ha%Matches_Plus_digit & Ht).
    apply Matches_Alt in Ht as [Ht| ->%Matches_Eps].
    + apply Matches_Seq in Ht
        as (h & b & -> & ->%Matches_Chr & Hb%Matches_Plus_digit).
      right. by exists a, b.
    + left. by rewrite app_nil_r.
  - intros [Hs|(a & b & -> & Ha & Hb)].
    + exists s, []. rewrite app_nil_r.
      split_and!; [done | by apply Matches_Plus_digit |].
      apply M_Alt_r. constructor.
    + exists a, (hyphen :: b).
      split_and!; [done | by apply Matches_Plus_digit |].
      apply M_Alt_l. apply (M_Seq _ _ [hyphen] b).
      * by apply Matches_Chr.
      * by apply Matches_Plus_digit.
Qed.

Lemma digit_not_space c : digit c = true → space c = false.
Proof.
  unfold digit, space. intros [Hl Hu]%andb_true_iff.
  apply N.leb_le in Hl, Hu. apply orb_false_iff. split.
  - apply bool_decide_eq_false. rewrite !elem_of_cons, elem_of_nil. lia.
  - apply andb_false_iff. left. apply N.leb_gt. lia.
Qed.

Lemma NUMBER_spaceless s : NUMBER s → spaceless s.
Proof.
  intros [_ Hs]. eapply Forall_impl; [done|]. apply digit_not_space.
Qed.

Lemma PAGE_spaceless s : PAGE s → spaceless s.
Proof.
  intros [?|(a & b & -> & Ha & Hb)]; [by apply NUMBER_spaceless|].
  apply Forall_app. split; [by apply NUMBER_spaceless|].
  constructor; [done | by apply NUMBER_spaceless].
Qed.

Lemma PAGESET_spaceless s : PAGESET s → spaceless s.
Proof.
  intros (p & rest & -> & Hp & Hrest).
  apply Forall_app. split; [by apply PAGE_spaceless|].
  induction Hrest as [|q rest Hq _ IH]; [constructor|].
  cbn. constructor; [done|]. apply Forall_app.
  split; [by apply PAGE_spaceless | done].
Qed.

(** One [,\s*PAGE] group in a string without white space. *)
Lemma Matches_group s :
  spaceless s →
  Matches (Seq (Chr comma) (Seq (Star (Class space)) pageItem)) s →
  ∃ q, s = comma :: q ∧ PAGE q.
Proof.
  intros Hs (h & t & -> & ->%Matches_Chr & Ht)%Matches_Seq.
  apply Matches_Seq in Ht as (ws & q & -> & Hws%Matches_Star_Class & Hq%Matches_pageItem).
  exists q. split; [|done].
  destruct ws as [|w ws]; [done|].
  inversion Hs as [|?? _ Hs']; subst. inversion Hs' as [|?? Hw _]; subst.
  inversion Hws; subst. congruence.
Qed.

Lemma Matches_pageRegex s : spaceless s → Matches pageRegex s → PAGESET s.
Proof.
  intros Hs (p & t & -> & Hp%Matches_pageItem & Ht)%Matches_Seq.
  apply Forall_app in Hs as [_ Hs].
  apply Matches_Star_concat in Ht as (l & -> & Hl).
  exists p. cut (∃ rest, concat l = concat ((λ q, comma :: q) <$> rest)
                         ∧ Forall PAGE rest).
  { intros (rest & -> & ?). by exists rest. }
  clear p Hp. induction Hl as [|x l Hx _ IH]; [by exists []|].
  cbn in Hs. apply Forall_app in Hs as [Hsx Hsl].
  destruct (Matches_group x Hsx Hx) as (q & -> & Hq).
  destruct (IH Hsl) as (rest & Hc & Hrest).
  exists (q :: rest). split; [|by constructor].
  cbn. by rewrite Hc.
Qed.

Lemma PAGESET_Matches s : PAGESET s → Matches pageRegex s.
Proof.
  intros (p & rest & -> & Hp & Hrest). unfold pageRegex.
  constructor; [by apply Matches_pageItem|].
  apply Matches_Star_concat. exists ((λ q, comma :: q) <$> rest).
  split; [done|]. apply Forall_fmap. eapply Forall_impl; [done|].
  intros q Hq. apply (M_Seq _ _ [comma] q); [by apply Matches_Chr|].
  apply (M_Seq _ _ [] q); [constructor | by apply Matches_pageItem].
Qed.

Lemma stripSpaces_id s : stripSpaces s = s ↔ spaceless s.
Proof.
  unfold stripSpaces, spaceless. induction s as [|c s IH]; [done|].
  destruct (space c) eqn:Hc.
  - rewrite filter_cons_False by congruence. split.
    + intros Heq. pose proof (length_filter (λ c, space c = false) s) as Hl.
      rewrite Heq in Hl. cbn in Hl. lia.
    + inversion 1; congruence.
  - rewrite filter_cons_True by done. split.
    + intros [= Heq]. constructor; [done | by apply IH].
    + inversion 1; subst. f_equal. by apply IH.
Qed.

Lemma stripSpaces_spaceless s : spaceless (stripSpaces s).
Proof.
  apply Forall_forall. intros c Hc.
  by apply list_elem_of_filter in Hc as [? _].
Qed.

(** The grammar is the pattern restricted to strings without white space. *)
Lemma PAGESET_iff_test s :
  PAGESET s ↔ test pageRegex s = true ∧ stripSpaces s = s.
Proof.
  rewrite test_Matches, stripSpaces_id. split.
  - intros Hs. split; [by apply PAGESET_Matches | by apply PAGESET_spaceless].
  - intros [? ?]. by apply Matches_pageRegex.
Qed.

Lemma trimStart_nil s : trimStart s = [] → stripSpaces s = [].
Proof.
  induction s as [|c s IH]; [done|]. cbn [trimStart].
  destruct (space c) eqn:Hc; [|done]. intros Ht.
  unfold stripSpaces. rewrite filter_cons_False by congruence. by apply IH.
Qed.

Lemma trimStart_head s c t : trimStart s = c :: t → space c = false.
Proof.
  induction s as [|c' s IH]; [done|]. cbn [trimStart].
  destruct (space c') eqn:Hc; [done | congruence].
Qed.

Lemma trim_nil s : trim s = [] → stripSpaces s = [].
Proof.
  unfold trim. intros Ht. apply trimStart_nil.
  apply (f_equal reverse) in Ht. rewrite reverse_involutive in Ht. cbn in Ht.
  destruct (trimStart s) as [|c t] eqn:Hs; [done|].
  apply trimStart_head in Hs.
  apply trimStart_nil in Ht. unfold stripSpaces in Ht.
  rewrite reverse_cons, filter_app, filter_cons_True in Ht by done.
  by apply app_eq_nil in Ht as [_ ?].
Qed.

Lemma PAGESET_nonempty s : PAGESET s → s ≠ [].
Proof.
  intros (p & rest & -> & Hp & _) Hnil.
  apply app_eq_nil in Hnil as [-> _].
  destruct Hp as [[? _]|(a & b & Heq & _)]; [done | by destruct a].
Qed.

(** ** Validation in [handleSplit] *)

Lemma test_stripSpaces p :
  test pageRegex (stripSpaces p) = true ↔ PAGESET (stripSpaces p).
Proof.
  rewrite PAGESET_iff_test. split; [|by intros [? _]].
  intros Ht. split; [done|]. apply stripSpaces_id, stripSpaces_spaceless.
Qed.

Lemma handleSplit_accepts fetch st f :
  selectedFile st = Some f → PAGESET (stripSpaces (pages st)) →
  head (handleSplit fetch st).2
  = Some (Post endpoint {| file_field := f; pages_field := pages st |}).
Proof.
  intros Hf Hp. unfold handleSplit. rewrite Hf.
  rewrite bool_decide_false.
  2:{ intros Ht%trim_nil. by apply PAGESET_nonempty in Hp. }
  apply test_stripSpaces in Hp. rewrite Hp. cbn.
  by destruct (fetch _) as [m|[|]|m].
Qed.

Lemma handleSplit_rejects fetch st f :
  selectedFile st = Some f → ¬ PAGESET (stripSpaces (pages st)) →
  (handleSplit fetch st).2 = [] ∧ is_Some (error (handleSplit fetch st).1).
Proof.
  intros Hf Hp. unfold handleSplit. rewrite Hf.
  case_bool_decide; [by eauto|].
  rewrite <-test_stripSpaces in Hp. apply not_true_is_false in Hp.
  rewrite Hp. cbn. eauto.
Qed.

(** C9, as the handler has it.  With a file selected, [handleSplit] sends
    the request exactly when the page string, with all white space removed,
    is in the grammar [PAGESET := PAGE (',' PAGE)*],
    [PAGE := NUMBER ('-' NUMBER)?]; otherwise it sets a validation error and
    sends nothing.  In particular 1,3-5,8 is accepted, while 1,,3 and abc
    are rejected as an invalid page format before any request. *)
Theorem handleSplit_validates fetch st f :
  selectedFile st = Some f →
  let request := Post endpoint {| file_field := f; pages_field := pages st |} in
  (head (handleSplit fetch st).2 = Some request
     ↔ PAGESET (stripSpaces (pages st)))
  ∧ (¬ PAGESET (stripSpaces (pages st)) →
     (handleSplit fetch st).2 = [] ∧ is_Some (error (handleSplit fetch st).1))
  ∧ (pages st = lit "1,3-5,8" → head (handleSplit fetch st).2 = Some request)
  ∧ (pages st = lit "1,,3" ∨ pages st = lit "abc" →
     handleSplit fetch st = (setError (Some invalidFormat) st, [])).
Proof.
  intros Hf request. split_and!.
  - split; [|by apply handleSplit_accepts].
    intros Hh. destruct (decide (test pageRegex (stripSpaces (pages st)) = true))
      as [Ht|Ht]; [by apply test_stripSpaces|].
    rewrite test_stripSpaces in Ht.
    destruct (handleSplit_rejects fetch st f Hf Ht) as [Hnil _].
    by rewrite Hnil in Hh.
  - by apply (handleSplit_rejects fetch st f).
  - intros Hp. apply handleSplit_accepts; [done|].
    apply PAGESET_iff_test. by rewrite Hp.
  - intros Hp. unfold handleSplit. rewrite Hf.
    by destruct Hp as [-> | ->].
Qed.

End PdfSplitFacts.

(** ** The handlers on the sample inputs *)
Module ImgToPdfRuns.
Import ImgToPdf ImgToPdfFacts Samples.

(** The worked example: three entries of sizes 100x200 (PNG), 400x100
    (JPEG) and 300x300 (GIF) on a portrait page of 210x297 mm with a margin
    of 10 mm give three pages. *)
Lemma generatePDF_pages_witness :
  selectedImages (withImages three) ≠ []
  ∧ Forall (placeable 10%Q (browser draws) 210%Q 297%Q)
      (selectedImages (withImages three))
  ∧ ∃ pdf,
      (generatePDF (withImages three) (browser draws)).1.1
        = Saved "images-1700000000000.pdf" pdf
      ∧ length (pages pdf) = 3
      ∧ Forall2 (pageOf 10%Q (browser draws) 210%Q 297%Q) three (pages pdf).
Proof.
  assert (selectedImages (withImages three) ≠ []) as Hne by done.
  assert (Forall (placeable 10%Q (browser draws) 210%Q 297%Q)
            (selectedImages (withImages three))) as Hload.
  { repeat constructor; by eexists _, _. }
  split_and!; [done | done |].
  destruct (generatePDF_pages (withImages three) (browser draws) Hne Hload)
    as (pdf & Ha & Hlen & Hpages & _ & Hsave).
  destruct (Hsave eq_refl) as (filename & Hs & _).
  exists pdf. split_and!; [|done|done].
  rewrite Hs. vm_compute in Hs. by injection Hs as -> _.
Defined.

(** Against C1 as stated: a collection that is not empty, with one entry
    whose image never fires its [load] event.  The loop never gets past the
    entry, so no document is produced. *)
Lemma unloadable_image_no_document :
  let s := withImages [entry png "blob:7" "9s8t7u6v5"] in
  selectedImages s ≠ []
  ∧ onload (browser draws) "blob:7" = None
  ∧ (generatePDF s (browser draws)).1.1 = Stalled
  ∧ assembled (generatePDF s (browser draws)).1.1 = None
  ∧ downloads (generatePDF s (browser draws)).2 = [].
Proof. cbv zeta. split_and!; done. Qed.

(** The first page of the worked example: ratio 277/200, so the image is
    138.5 mm wide and 277 mm high, at x = 35.75 and y = 10. *)
Example first_page :
  ∃ p rest, (λ pdf, pages pdf) <$> assembled (generatePDF (withImages three) (browser draws)).1.1
            = Some ([p] :: rest)
    ∧ format p = PNG
    ∧ (width p == 277 # 2)%Q ∧ (height p == 277)%Q
    ∧ (x p == 143 # 4)%Q ∧ (y p == 10)%Q.
Proof. vm_compute. do 2 eexists. split_and!; reflexivity. Qed.

Lemma handleFiles_appends_witness :
  validImages [png; txt; jpeg; gif] ≠ []
  ∧ length (selectedImages initial) + length (validImages [png; txt; jpeg; gif]) ≤ 50
  ∧ ∃ added,
      selectedImages (handleFiles (Some [png; txt; jpeg; gif]) initial (browser draws)).1
        = selectedImages initial ++ added
      ∧ file <$> added = [png; jpeg; gif]
      ∧ status (handleFiles (Some [png; txt; jpeg; gif]) initial (browser draws)).1
        = Some {| message := "3 image(s) added"; severity := success |}.
Proof.
  assert (validImages [png; txt; jpeg; gif] ≠ []) as Hne by done.
  assert (length (selectedImages initial)
          + length (validImages [png; txt; jpeg; gif]) ≤ 50) as Hcap
    by (vm_compute; lia).
  split_and!; [done | done |].
  destruct (handleFiles_appends [png; txt; jpeg; gif] initial (browser draws)
              Hne Hcap) as (added & Ha & _ & Hf & _ & Hs & _).
  exists added. split_and!; done.
Defined.

Lemma handleFiles_rejects_iff_witness :
  validImages [txt] = []
  ∧ selectedImages (handleFiles (Some [txt]) (withImages three) (browser draws)).1
    = three
  ∧ ∃ m, status (handleFiles (Some [txt]) (withImages three) (browser draws)).1
         = Some {| message := m; severity := error |}.
Proof.
  assert (validImages [txt] = []) as Hv by done.
  destruct (handleFiles_rejects_iff [txt] (withImages three) (browser draws))
    as [Hiff Hover].
  destruct (proj2 Hiff (or_introl Hv)) as [Hm _].
  destruct (Hover (or_introl Hv)) as [Hs _].
  split_and!; done.
Defined.

Lemma generatePDF_empty_witness :
  selectedImages initial = []
  ∧ generatePDF initial (browser draws)
    = (NoInput, setStatus "No images selected" error initial, browser draws).
Proof.
  split; [done|].
  by destruct (generatePDF_empty initial (browser draws) eq_refl) as [-> _].
Defined.

(** Dropping the last entry on the first one puts it in front. *)
Lemma handleDropImage_relocates_witness :
  "zq7m5n0x1" ≠ "" ∧ "zq7m5n0x1" ≠ "4fzyo82mv"
  ∧ findIndex "zq7m5n0x1" three = Some 2 ∧ findIndex "4fzyo82mv" three = Some 0
  ∧ id <$> selectedImages
             (handleDropImage "4fzyo82mv"
                (handleDragStart "zq7m5n0x1" (withImages three)))
    = ["zq7m5n0x1"; "4fzyo82mv"; "b8h3k1w9c"].
Proof.
  split_and!; [done | done | done | done |].
  destruct (handleDropImage_relocates (withImages three) "zq7m5n0x1" "4fzyo82mv")
    as (_ & _ & Hmove).
  destruct (Hmove ltac:(done) ltac:(done) 2 0 eq_refl eq_refl)
    as (item & Hitem & _ & -> & _).
  injection Hitem as <-. reflexivity.
Defined.
(** Against C2 as stated: one file is taken in (its preview URL is minted
    and live), then removed.  The collection is empty again, yet no handle
    was released, where the claim has exactly one; clearing the one-entry
    collection releases none either, where the claim has as many as there
    were entries. *)
Lemma preview_handle_not_released :
  let s1 := (handleFiles (Some [png]) initial (browser draws)).1 in
  let b1 := (handleFiles (Some [png]) initial (browser draws)).2 in
  selectedImages s1 = [entry png "blob:0" "4fzyo82mv"]
  ∧ objectURLs b1 = ["blob:0"]
  ∧ selectedImages (removeImage "4fzyo82mv" s1 b1).1 = []
  ∧ objectURLs (removeImage "4fzyo82mv" s1 b1).2 = ["blob:0"]
  ∧ length (released b1 (removeImage "4fzyo82mv" s1 b1).2) ≠ 1
  ∧ selectedImages (clearAll s1 b1).1 = []
  ∧ length (released b1 (clearAll s1 b1).2) ≠ length (selectedImages s1).
Proof. vm_compute. split_and!; (reflexivity || discriminate). Qed.

(** C3 at a failing input: two files taken in while [Math.random()] returns
    0.5 twice get the same id; removing either then removes both. *)
Lemma generateId_collision :
  let s1 := (handleFiles (Some [png; jpeg]) initial (browser half)).1 in
  let b1 := (handleFiles (Some [png; jpeg]) initial (browser half)).2 in
  file <$> selectedImages s1 = [png; jpeg]
  ∧ id <$> selectedImages s1 = ["i"; "i"]
  ∧ ¬ NoDup (id <$> selectedImages s1)
  ∧ selectedImages (removeImage "i" s1 b1).1 = [].
Proof.
  cbv zeta. split_and!; [reflexivity | reflexivity | | reflexivity].
  change (id <$> selectedImages _) with ["i"; "i"].
  intros Hd. apply NoDup_cons in Hd as [Hn _]. apply Hn. left.
Qed.

(** Against C4 as stated: dragging the first of three entries onto the
    last leaves it behind the target, not immediately before it. *)
Lemma drop_lands_behind_target :
  let next := selectedImages
                (handleDropImage "zq7m5n0x1"
                   (handleDragStart "4fzyo82mv" (withImages three))) in
  id <$> three = ["4fzyo82mv"; "b8h3k1w9c"; "zq7m5n0x1"]
  ∧ id <$> next = ["b8h3k1w9c"; "zq7m5n0x1"; "4fzyo82mv"]
  ∧ immediatelyBefore "4fzyo82mv" "zq7m5n0x1" (id <$> next) = false
  ∧ immediatelyBefore "zq7m5n0x1" "4fzyo82mv" (id <$> next) = true.
Proof. vm_compute. split_and!; reflexivity. Qed.

End ImgToPdfRuns.

Module PdfSplitRuns.
Import PdfSplit PdfSplitFacts Samples.

Lemma handleSplit_validates_witness :
  selectedFile (splitting "1,3-5,8") = Some report
  ∧ PAGESET (lit "1,3-5,8")
  ∧ head (handleSplit server (splitting "1,3-5,8")).2
    = Some (Post endpoint {| file_field := report; pages_field := lit "1,3-5,8" |}).
Proof.
  destruct (handleSplit_validates server (splitting "1,3-5,8") report eq_refl)
    as (Hiff & _ & Hacc & _).
  split_and!; [done | | by apply Hacc].
  by apply (proj1 Hiff), Hacc.
Defined.

(** Against C9 as stated: the string "1, 3" is not in the grammar, which
    has no white space, yet the handler accepts it and sends the request. *)
Lemma spaced_pages_accepted :
  ¬ PAGESET (lit "1, 3")
  ∧ head (handleSplit server (splitting "1, 3")).2
    = Some (Post endpoint {| file_field := report; pages_field := lit "1, 3" |}).
Proof.
  split; [|reflexivity].
  intros [_ Hs]%PAGESET_iff_test. vm_compute in Hs. discriminate.
Qed.

End PdfSplitRuns.

(** ** Further properties of the collection manager *)
Module ImgToPdfProps.
Import ImgToPdf ImgToPdfFacts.

Section Props.
Context {num : Type} `{JSNumber num}.
Implicit Types (s : State num) (b : Browser num) (pdf : jsPDF num).
Implicit Types (images : list ImageData) (batch : list File).

(** *** Arrays with [undefined] slots *)

Lemma arrayGet_defined {A} i (l : list A) : arrayGet i (Some <$> l) = l !! i.
Proof. unfold arrayGet. rewrite list_lookup_fmap. by destruct (l !! i). Qed.

Lemma arraySet_defined {A} i (x : A) (l : list A) :
  i < length l → arraySet i (Some x) (Some <$> l) = Some <$> <[i:=x]> l.
Proof.
  intros Hi. unfold arraySet. rewrite length_fmap, decide_True by done.
  by rewrite list_fmap_insert.
Qed.

Lemma mapM_defined {A} (l : list A) : mapM (λ slot, slot) (Some <$> l) = Some l.
Proof. by apply mapM_fmap_Some. Qed.

(** Two neighbours, and the list with them exchanged. *)
Lemma neighbours_split {A} i (a c : A) (l : list A) :
  l !! i = Some a → l !! S i = Some c →
  l = take i l ++ a :: c :: drop (S (S i)) l.
Proof.
  intros Ha Hc. rewrite <-(take_drop_middle l i a Ha) at 1. do 2 f_equal.
  by apply drop_S.
Qed.

Lemma neighbours_swapped {A} i (a c : A) (l : list A) :
  l !! i = Some a → l !! S i = Some c →
  <[S i:=a]> (<[i:=c]> l) = take i l ++ c :: a :: drop (S (S i)) l.
Proof.
  intros Ha Hc. pose proof (lookup_lt_Some _ _ _ Hc) as Hlen.
  rewrite (neighbours_split i a c l Ha Hc) at 1.
  assert (length (take i l) = i) as Hi by (rewrite length_take; lia).
  rewrite (insert_app_r_alt _ _ i) by lia. rewrite Hi, Nat.sub_diag. cbn.
  rewrite (insert_app_r_alt _ _ (S i)) by lia. rewrite Hi.
  by replace (S i - i) with 1 by lia.
Qed.

Lemma arraySet_lookup {A} i (v : option A) (l : list (option A)) :
  arraySet i v l !! i = Some v.
Proof.
  unfold arraySet. case_decide as Hi.
  - by apply list_lookup_insert_eq.
  - rewrite lookup_app_r by lia. rewrite lookup_app_r; rewrite length_replicate; [|lia].
    by replace (i - length l - (i - length l)) with 0 by lia.
Qed.

Lemma mapM_undefined {A} (l : list (option A)) :
  None ∈ l → mapM (λ slot, slot) l = None.
Proof.
  intros Hin. apply eq_None_not_Some. intros Hs.
  apply mapM_is_Some in Hs. rewrite Forall_forall in Hs.
  by destruct (Hs None Hin).
Qed.

(** *** moveImage *)

Lemma moveImage_down s i a c :
  selectedImages s !! i = Some a → selectedImages s !! S i = Some c →
  moveImage i down s
  = Some (setSelectedImages
            (λ _, take i (selectedImages s)
                  ++ c :: a :: drop (S (S i)) (selectedImages s)) s).
Proof.
  intros Ha Hc. pose proof (lookup_lt_Some _ _ _ Hc) as Hlen.
  unfold moveImage. rewrite bool_decide_false by lia.
  unfold swapSlots. rewrite !arrayGet_defined.
  replace (i + 1) with (S i) by lia. rewrite Ha, Hc.
  rewrite arraySet_defined by lia.
  rewrite arraySet_defined by (rewrite length_insert; lia).
  rewrite mapM_defined. cbn.
  by rewrite (neighbours_swapped i a c).
Qed.

Lemma moveImage_up s i a c :
  selectedImages s !! i = Some a → selectedImages s !! S i = Some c →
  moveImage (S i) up s
  = Some (setSelectedImages
            (λ _, take i (selectedImages s)
                  ++ c :: a :: drop (S (S i)) (selectedImages s)) s).
Proof.
  intros Ha Hc. pose proof (lookup_lt_Some _ _ _ Hc) as Hlen.
  unfold moveImage. rewrite bool_decide_false by lia.
  unfold swapSlots. rewrite !arrayGet_defined.
  replace (S i - 1) with i by lia. rewrite Ha, Hc.
  rewrite arraySet_defined by lia.
  rewrite arraySet_defined by (rewrite length_insert; lia).
  rewrite mapM_defined. cbn.
  rewrite list_insert_insert_ne by lia.
  by rewrite (neighbours_swapped i a c).
Qed.

(** X1. [moveImage] on two entries that are both in the collection
    exchanges them and nothing else: moving the upper one down and moving
    the lower one up give the same collection, a permutation of the old one
    in which the two have traded places. *)
Theorem moveImage_swaps_neighbours s i a c :
  selectedImages s !! i = Some a → selectedImages s !! S i = Some c →
  ∃ s', moveImage i down s = Some s' ∧ moveImage (S i) up s = Some s'
        ∧ selectedImages s' = <[S i:=a]> (<[i:=c]> (selectedImages s))
        ∧ selectedImages s' !! i = Some c ∧ selectedImages s' !! S i = Some a
        ∧ selectedImages s' ≡ₚ selectedImages s
        ∧ status s' = status s.
Proof.
  intros Ha Hc. pose proof (lookup_lt_Some _ _ _ Hc) as Hlen.
  eexists. split; [by apply moveImage_down|].
  split; [by apply moveImage_up|]. cbn.
  rewrite <-(neighbours_swapped i a c) by done.
  split_and!; [done | | | | done].
  - rewrite list_lookup_insert_ne by lia. apply list_lookup_insert_eq. lia.
  - apply list_lookup_insert_eq. rewrite length_insert. lia.
  - rewrite (neighbours_swapped i a c) by done.
    rewrite (neighbours_split i a c (selectedImages s)) at 3 by done.
    apply Permutation_app_head, perm_swap.
Qed.

(** X2. [moveImage] leaves a list of entries exactly when the index lies
    in the collection, or the call is the guarded "up" at index 0.  Any
    other index makes the swap write [undefined] into the array. *)
Theorem moveImage_defined_iff s index direction :
  is_Some (moveImage index direction s)
  ↔ index < length (selectedImages s) ∨ (direction = up ∧ index = 0).
Proof.
  unfold moveImage. split.
  - intros Hs. destruct (decide (index < length (selectedImages s))) as [|Hge];
      [by left|]. right.
    destruct direction; case_bool_decide; try done; try lia.
    all: exfalso; revert Hs; unfold swapSlots; rewrite !arrayGet_defined.
    all: rewrite (lookup_ge_None_2 _ index) by lia.
    all: rewrite mapM_undefined; [by intros [? [=]]|].
    all: eapply list_elem_of_lookup_2, arraySet_lookup.
  - intros [Hlt|[-> ->]]; [|by rewrite bool_decide_true].
    destruct direction.
    + case_bool_decide as H0; [done|].
      destruct index as [|i]; [done|].
      destruct (lookup_lt_is_Some_2 (selectedImages s) i) as [a Ha]; [lia|].
      destruct (lookup_lt_is_Some_2 (selectedImages s) (S i)) as [c Hc]; [lia|].
      pose proof (moveImage_up s i a c Ha Hc) as Hm. unfold moveImage in Hm.
      rewrite bool_decide_false in Hm by done. by rewrite Hm.
    + case_bool_decide as H0; [done|].
      destruct (lookup_lt_is_Some_2 (selectedImages s) index) as [a Ha]; [lia|].
      destruct (lookup_lt_is_Some_2 (selectedImages s) (S index)) as [c Hc]; [lia|].
      pose proof (moveImage_down s index a c Ha Hc) as Hm. unfold moveImage in Hm.
      rewrite bool_decide_false in Hm by done. by rewrite Hm.
Qed.

Lemma setSelectedImages_back s f :
  setSelectedImages (λ _, selectedImages s) (setSelectedImages f s) = s.
Proof. by destruct s. Qed.

(** X3. Moving an entry down and then moving it up again (or pressing
    "down" on the same position once more) restores the state. *)
Theorem moveImage_round_trip s i :
  S i < length (selectedImages s) →
  ∃ s', moveImage i down s = Some s'
        ∧ moveImage (S i) up s' = Some s
        ∧ moveImage i down s' = Some s.
Proof.
  intros Hlen.
  destruct (lookup_lt_is_Some_2 (selectedImages s) i) as [a Ha]; [lia|].
  destruct (lookup_lt_is_Some_2 (selectedImages s) (S i)) as [c Hc]; [lia|].
  eexists. split; [by apply moveImage_down|].
  set (l := selectedImages s) in *.
  set (l' := take i l ++ c :: a :: drop (S (S i)) l).
  assert (length (take i l) = i) as Hi by (rewrite length_take; lia).
  assert (l' !! i = Some c) as Hc'.
  { unfold l'. rewrite lookup_app_r by lia. by rewrite Hi, Nat.sub_diag. }
  assert (l' !! S i = Some a) as Ha'.
  { unfold l'. rewrite lookup_app_r by lia. rewrite Hi.
    by replace (S i - i) with 1 by lia. }
  assert (take i l' ++ a :: c :: drop (S (S i)) l' = l) as Hback.
  { assert (take i l' = take i l) as -> by (by apply take_app_length').
    assert (drop (S (S i)) l' = drop (S (S i)) l) as ->.
    { unfold l'. rewrite drop_app_ge by lia. rewrite Hi.
      by replace (S (S i) - i) with 2 by lia. }
    symmetry. by apply neighbours_split. }
  split.
  - rewrite (moveImage_up _ i c a) by done. cbn. fold l l'.
    rewrite Hback. f_equal. apply setSelectedImages_back.
  - rewrite (moveImage_down _ i c a) by done. cbn. fold l l'.
    rewrite Hback. f_equal. apply setSelectedImages_back.
Qed.


(** *** Drag relocation with distinct ids *)

Lemma findIndex_NoDup images k item :
  NoDup (id <$> images) → images !! k = Some item →
  findIndex (id item) images = Some k.
Proof.
  intros Hnd Hk. unfold findIndex.
  erewrite (proj2 (list_find_Some _ images k item)); [done|].
  split_and!; [done | done |].
  intros j y Hj Hlt Heq.
  assert (j = k); [|lia].
  eapply (NoDup_lookup _ j k (id item) Hnd); rewrite list_lookup_fmap.
  - by rewrite Hj, <-Heq.
  - by rewrite Hk.
Qed.

Lemma splice_in_delete {A} k (x : A) (l : list A) :
  l !! k = Some x → splice_in k x (delete k l) = l.
Proof.
  intros Hk. pose proof (lookup_lt_Some _ _ _ Hk) as Hlt. unfold splice_in.
  assert (length (take k l) = k) as Hl by (rewrite length_take; lia).
  rewrite delete_take_drop.
  rewrite take_app_length', drop_app_length' by done.
  by apply take_drop_middle.
Qed.

Lemma delete_splice_in {A} k (x : A) (l : list A) :
  k ≤ length l → delete k (splice_in k x l) = l.
Proof.
  intros Hk. unfold splice_in.
  replace k with (length (take k l)) at 1 by (rewrite length_take; lia).
  rewrite delete_middle. apply take_drop.
Qed.

Lemma dropOn_images s a c :
  id a ≠ "" → id a ≠ id c →
  selectedImages (handleDropImage (id c) (handleDragStart (id a) s))
  = relocate (id a) (id c) (selectedImages s).
Proof.
  intros Ha Hac. rewrite handleDropImage_images.
  by rewrite decide_False by tauto.
Qed.

Lemma NoDup_ids_ne images i j a c :
  NoDup (id <$> images) → images !! i = Some a → images !! j = Some c →
  i ≠ j → id a ≠ id c.
Proof.
  intros Hnd Ha Hc Hij Heq. apply Hij.
  eapply (NoDup_lookup _ i j (id a) Hnd); rewrite list_lookup_fmap.
  - by rewrite Ha.
  - by rewrite Hc, Heq.
Qed.

Lemma relocate_at images di ti a c :
  NoDup (id <$> images) → images !! di = Some a → images !! ti = Some c →
  relocate (id a) (id c) images = splice_in ti a (delete di images).
Proof.
  intros Hnd Ha Hc. unfold relocate.
  rewrite (findIndex_NoDup _ di a), (findIndex_NoDup _ ti c) by done.
  by rewrite Ha.
Qed.

Lemma splice_neighbour_down {A} (l : list A) i a c :
  l !! i = Some a → l !! S i = Some c →
  splice_in (S i) a (delete i l) = take i l ++ c :: a :: drop (S (S i)) l.
Proof.
  intros Ha Hc. pose proof (lookup_lt_Some _ _ _ Hc) as Hlen.
  assert (length (take i l) = i) as Hi by (rewrite length_take; lia).
  unfold splice_in. rewrite delete_take_drop, (drop_S l c (S i)) by done.
  rewrite (take_app_ge _ _ (S i)), (drop_app_ge _ _ (S i)) by lia.
  rewrite Hi. replace (S i - i) with 1 by lia. cbn.
  by rewrite <-app_assoc.
Qed.

Lemma splice_neighbour_up {A} (l : list A) i a c :
  l !! i = Some a → l !! S i = Some c →
  splice_in i c (delete (S i) l) = take i l ++ c :: a :: drop (S (S i)) l.
Proof.
  intros Ha Hc. pose proof (lookup_lt_Some _ _ _ Hc) as Hlen.
  assert (length (take i l) = i) as Hi by (rewrite length_take; lia).
  unfold splice_in. rewrite delete_take_drop, (take_S_r l i a) by done.
  rewrite <-app_assoc. cbn.
  by rewrite take_app_length', drop_app_length' by done.
Qed.

(** X4. With distinct ids, dragging an entry onto its lower neighbour, or
    the lower neighbour onto it, is the same reordering as [moveImage]: the
    two trade places. *)
Theorem drop_on_neighbour_is_move s i a c :
  NoDup (id <$> selectedImages s) →
  selectedImages s !! i = Some a → selectedImages s !! S i = Some c →
  id a ≠ "" → id c ≠ "" →
  ∃ s', moveImage i down s = Some s'
    ∧ selectedImages (handleDropImage (id c) (handleDragStart (id a) s))
      = selectedImages s'
    ∧ selectedImages (handleDropImage (id a) (handleDragStart (id c) s))
      = selectedImages s'.
Proof.
  intros Hnd Ha Hc Hna Hnc.
  pose proof (NoDup_ids_ne _ i (S i) a c Hnd Ha Hc ltac:(lia)) as Hac.
  eexists. split; [by apply moveImage_down|]. cbn. split.
  - rewrite dropOn_images by done.
    rewrite (relocate_at _ i (S i) a c) by done.
    by apply splice_neighbour_down.
  - rewrite dropOn_images by done.
    rewrite (relocate_at _ (S i) i c a) by done.
    by apply splice_neighbour_up.
Qed.

(** X5. With distinct ids, a drag of an entry whose id is not the empty
    string can be undone by a drag: after the entry at [di] is dropped on
    the entry at [ti] it sits at [ti], and dropping it on the entry that now
    sits at [di] restores the collection.  An entry whose id is the empty
    string cannot be dragged: dropping it leaves the collection as it is. *)
Theorem drop_back_restores s di ti a c :
  NoDup (id <$> selectedImages s) →
  selectedImages s !! di = Some a → selectedImages s !! ti = Some c →
  di ≠ ti →
  let s1 := handleDropImage (id c) (handleDragStart (id a) s) in
  (id a ≠ "" →
   ∃ x, selectedImages s1 !! di = Some x
        ∧ selectedImages s1 !! ti = Some a
        ∧ selectedImages (handleDropImage (id x) (handleDragStart (id a) s1))
          = selectedImages s)
  ∧ (id a = "" → selectedImages s1 = selectedImages s).
Proof.
  intros Hnd Ha Hc Hne s1. split; [intros Hna|intros Hempty]; last first.
  { unfold s1. rewrite handleDropImage_images. by rewrite decide_True by tauto. }
  pose proof (lookup_lt_Some _ _ _ Ha) as Hdl.
  pose proof (lookup_lt_Some _ _ _ Hc) as Htl.
  pose proof (NoDup_ids_ne _ di ti a c Hnd Ha Hc Hne) as Hac.
  pose proof (length_delete (selectedImages s) di ltac:(eauto)) as Hlen.
  assert (selectedImages s1
          = splice_in ti a (delete di (selectedImages s))) as Hs1.
  { unfold s1. rewrite dropOn_images by done. by apply relocate_at. }
  assert (selectedImages s1 ≡ₚ selectedImages s) as Hperm.
  { rewrite Hs1, splice_in_Permutation. symmetry. by apply delete_Permutation. }
  assert (NoDup (id <$> selectedImages s1)) as Hnd1 by (by rewrite Hperm).
  assert (selectedImages s1 !! ti = Some a) as Hti.
  { rewrite Hs1. apply splice_in_lookup. lia. }
  destruct (lookup_lt_is_Some_2 (selectedImages s1) di) as [x Hx].
  { by rewrite (Permutation_length Hperm). }
  exists x. split_and!; [done | done |].
  pose proof (NoDup_ids_ne _ ti di a x Hnd1 Hti Hx ltac:(lia)) as Hax.
  rewrite dropOn_images by done.
  rewrite (relocate_at _ ti di a x) by done.
  rewrite Hs1, delete_splice_in by lia.
  by apply splice_in_delete.
Qed.

(** *** removeImage *)

Lemma filter_all {A} (P : A → Prop) `{!∀ x, Decision (P x)} (l : list A) :
  Forall P l → filter P l = l.
Proof.
  induction 1 as [|x l Hx _ IH]; [done|].
  by rewrite filter_cons_True, IH.
Qed.

Lemma filter_other_ids images k item :
  NoDup (id <$> images) → images !! k = Some item →
  filter (λ img, id img ≠ id item) images = delete k images.
Proof.
  revert k. induction images as [|y l IH]; intros k Hnd Hk; [done|].
  rewrite fmap_cons in Hnd. apply NoDup_cons in Hnd as [Hy Hnd].
  destruct k as [|k]; cbn in Hk.
  - injection Hk as ->. rewrite filter_cons_False by (intros Hn; by apply Hn).
    cbn. apply filter_all, Forall_forall. intros z Hz Heq.
    apply Hy. rewrite <-Heq. apply list_elem_of_fmap. eauto.
  - assert (id y ≠ id item) as Hne.
    { intros Heq. apply Hy. rewrite Heq. apply list_elem_of_fmap.
      eauto using list_elem_of_lookup_2. }
    rewrite filter_cons_True by done. cbn. f_equal. by apply IH.
Qed.

(** X6. [removeImage] on a collection with distinct ids deletes exactly
    the entry carrying the id and keeps the others in place; an id that is
    not in the collection removes nothing.  A notification is posted only
    when the collection ends up empty; otherwise the status is left as it
    was. *)
Theorem removeImage_distinct s b i :
  NoDup (id <$> selectedImages s) →
  let next := selectedImages (removeImage i s b).1 in
  match findIndex i (selectedImages s) with
  | Some k => next = delete k (selectedImages s)
              ∧ S (length next) = length (selectedImages s)
  | None => next = selectedImages s
  end
  ∧ (i ∉ id <$> next)
  ∧ status (removeImage i s b).1
    = if bool_decide (next = [])
      then Some {| message := "All images removed"; severity := success |}
      else status s.
Proof.
  intros Hnd next. subst next. unfold removeImage. cbn.
  set (next := filter _ _).
  assert (selectedImages (if bool_decide (length next = 0)
            then setStatus "All images removed" success
                   (setSelectedImages (λ _, next) s)
            else setSelectedImages (λ _, next) s) = next) as ->
    by (by case_bool_decide).
  split_and!.
  - destruct (findIndex i (selectedImages s)) as [k|] eqn:Hf.
    + apply findIndex_Some in Hf as (item & Hk & <- & _).
      unfold next. rewrite (filter_other_ids _ k item) by done.
      split; [done|]. rewrite length_delete by eauto.
      pose proof (lookup_lt_Some _ _ _ Hk). lia.
    + apply findIndex_None in Hf. unfold next. apply filter_all, Forall_forall.
      intros img Hin Heq. apply Hf. rewrite <-Heq.
      apply list_elem_of_fmap. eauto.
  - intros (img & -> & Hin)%list_elem_of_fmap.
    apply list_elem_of_filter in Hin as [Hne _]. by apply Hne.
  - destruct next; by repeat case_bool_decide.
Qed.

(** *** generatePDF: the other ways it ends *)

Lemma forLoop_unloaded ps b images i pdf :
  Exists (λ img, onload b (url img) = None) images →
  forLoop ps b i images pdf = None.
Proof.
  intros Hex. revert i pdf.
  induction Hex as [img rest Hn|img rest _ IH]; intros i pdf; cbn [forLoop].
  - by rewrite Hn.
  - destruct (onload b (url img)) as [[w h]|]; [|done]. cbv zeta.
    by destruct (addImageRaises b _).
Qed.

Lemma forLoop_placeable ps b W H' images :
  Forall (placeable (margin ps) b W H') images →
  ∀ i pdf, pdfWidth pdf = W → pdfHeight pdf = H' →
  is_Some (forLoop ps b i images pdf).
Proof.
  induction 1 as [|img rest (w & h & Hwh & Hadd) _ IH]; intros i pdf HW HH;
    cbn [forLoop]; [done|].
  rewrite Hwh. cbv zeta. rewrite place_fitted.
  assert (pdfWidth (if bool_decide (0 < i) then addPage pdf else pdf) = W
          ∧ pdfHeight (if bool_decide (0 < i) then addPage pdf else pdf) = H')
    as [-> ->] by (by case_bool_decide).
  rewrite Hadd. apply IH; by case_bool_decide.
Qed.

(** X7. If the image of some entry never fires its [load] event,
    [generatePDF] never gets past it: the outcome is a stall with [loading]
    still set, the status still "Generating PDF...", and nothing saved,
    whatever the other entries are. *)
Theorem generatePDF_stalls s b :
  Exists (λ img, onload b (url img) = None) (selectedImages s) →
  generatePDF s b
  = (Stalled, setStatus "Generating PDF..." info (setLoading true s), b)
  ∧ loading (generatePDF s b).1.2 = true
  ∧ downloads (generatePDF s b).2 = downloads b.
Proof.
  intros Hex. unfold generatePDF.
  rewrite bool_decide_false by (by destruct Hex).
  by rewrite (forLoop_unloaded (pageSettings s) b _ 0
                (new_jsPDF (orientation (pageSettings s)) b) Hex).
Qed.

(** X8. When the collection is not empty, every image loads and
    [pdf.addImage] takes every placement without an exception,
    [generatePDF] ends with [loading] cleared: either [pdf.save] raises, the
    status is the generic error and nothing is saved, or exactly one
    document is saved under images-<timestamp>.pdf and the status reports
    the number of images. *)
Theorem generatePDF_finishes s b :
  let W := (a4 b (orientation (pageSettings s))).1 in
  let H := (a4 b (orientation (pageSettings s))).2 in
  selectedImages s ≠ [] →
  Forall (placeable (margin (pageSettings s)) b W H) (selectedImages s) →
  loading (generatePDF s b).1.2 = false
  ∧ (saveThrows b = true →
     status (generatePDF s b).1.2
       = Some {| message := "Error generating PDF"; severity := error |}
     ∧ (generatePDF s b).2 = b)
  ∧ (saveThrows b = false →
     status (generatePDF s b).1.2
       = Some {| message := "PDF generated with "
                            +:+ pretty (length (selectedImages s))
                            +:+ " image(s)";
                 severity := success |}
     ∧ ∃ pdf, downloads (generatePDF s b).2
              = downloads b ++ [("images-" +:+ pretty (now b) +:+ ".pdf", pdf)]).
Proof.
  intros W H' Hne Hload. unfold generatePDF.
  rewrite bool_decide_false by (by destruct (selectedImages s)).
  destruct (forLoop_placeable (pageSettings s) b W H' _ Hload 0
              (new_jsPDF (orientation (pageSettings s)) b) eq_refl eq_refl)
    as [pdf ->].
  destruct (saveThrows b); split_and!; try done.
  intros _. split; [done | by exists pdf].
Qed.

Lemma forLoop_placed ps b W H' images :
  ∀ i pdf, pdfWidth pdf = W → pdfHeight pdf = H' →
  is_Some (forLoop ps b i images pdf) →
  Forall (placeable (margin ps) b W H') images.
Proof.
  induction images as [|img rest IH]; intros i pdf HW HH Hs; [done|].
  cbn [forLoop] in Hs.
  destruct (onload b (url img)) as [[w h]|] eqn:Hwh; [|by destruct Hs].
  cbv zeta in Hs. rewrite place_fitted in Hs.
  assert (pdfWidth (if bool_decide (0 < i) then addPage pdf else pdf) = W
          ∧ pdfHeight (if bool_decide (0 < i) then addPage pdf else pdf) = H')
    as [HW1 HH1] by (by case_bool_decide).
  rewrite HW1, HH1 in Hs.
  destruct (addImageRaises b _) eqn:Hadd; [by destruct Hs|].
  constructor; [by exists w, h|].
  by eapply IH; [| |exact Hs].
Qed.

(** X18. On a non-empty collection [generatePDF] stalls exactly when some
    entry cannot be placed: its image never loads, or [pdf.addImage] raises
    on it inside the load listener, where no [catch] reaches.  A stall leaves
    [loading] set and the browser as it was: nothing is saved and no error
    is shown. *)
Theorem generatePDF_stalls_iff s b :
  let W := (a4 b (orientation (pageSettings s))).1 in
  let H := (a4 b (orientation (pageSettings s))).2 in
  selectedImages s ≠ [] →
  ((generatePDF s b).1.1 = Stalled
   ↔ ¬ Forall (placeable (margin (pageSettings s)) b W H) (selectedImages s))
  ∧ ((generatePDF s b).1.1 = Stalled →
     loading (generatePDF s b).1.2 = true
     ∧ status (generatePDF s b).1.2
       = Some {| message := "Generating PDF..."; severity := info |}
     ∧ (generatePDF s b).2 = b).
Proof.
  intros W H' Hne. unfold generatePDF.
  rewrite bool_decide_false by (by destruct (selectedImages s)).
  destruct (forLoop _ _ _ _ _) as [pdf|] eqn:Hloop.
  - assert (Forall (placeable (margin (pageSettings s)) b W H')
              (selectedImages s)) as Hall.
    { eapply (forLoop_placed _ _ _ _ _ 0); [| |by rewrite Hloop]; done. }
    by destruct (saveThrows b); (split; [split|]).
  - split; [|done]. split; [|done]. intros _ Hall.
    destruct (forLoop_placeable (pageSettings s) b W H' _ Hall 0
                (new_jsPDF (orientation (pageSettings s)) b) eq_refl eq_refl)
      as [pdf Hs].
    congruence.
Qed.

(** *** What every reachable state satisfies *)

Lemma toImageData_app batch1 batch2 b :
  toImageData (batch1 ++ batch2) b
  = ((toImageData batch1 b).1
       ++ (toImageData batch2 (toImageData batch1 b).2).1,
     (toImageData batch2 (toImageData batch1 b).2).2).
Proof.
  revert b. induction batch1 as [|f rest IH]; intros b.
  - cbn. by destruct (toImageData batch2 b).
  - cbn [app toImageData]. unfold createObjectURL, generateId.
    match goal with |- context [toImageData (rest ++ batch2) ?b'] =>
      rewrite (IH b'); destruct (toImageData rest b') as [tl b3] end.
    done.
Qed.

Lemma handleDropImage_Permutation s target :
  selectedImages (handleDropImage target s) ≡ₚ selectedImages s.
Proof.
  unfold handleDropImage. destruct (_ || _); [done|].
  destruct (draggedImage s); [|done]. cbn. apply relocate_Permutation.
Qed.

Lemma moveImage_Permutation s s' index direction :
  moveImage index direction s = Some s' →
  selectedImages s' ≡ₚ selectedImages s.
Proof.
  intros Hm.
  assert (is_Some (moveImage index direction s)) as Hs by eauto.
  unfold moveImage in Hm, Hs.
  destruct direction.
  - case_bool_decide as H0; [by injection Hm as <-|].
    destruct index as [|i]; [done|].
    destruct (decide (S i < length (selectedImages s))) as [Hlt|Hge].
    + destruct (lookup_lt_is_Some_2 (selectedImages s) i) as [a Ha]; [lia|].
      destruct (lookup_lt_is_Some_2 (selectedImages s) (S i)) as [c Hc]; [lia|].
      pose proof (moveImage_up s i a c Ha Hc) as Hu. unfold moveImage in Hu.
      rewrite bool_decide_false in Hu by done. rewrite Hu in Hm.
      injection Hm as <-. cbn.
      rewrite (neighbours_split i a c (selectedImages s)) at 3 by done.
      apply Permutation_app_head, perm_swap.
    + exfalso. revert Hs. unfold swapSlots. rewrite !arrayGet_defined.
      rewrite (lookup_ge_None_2 _ (S i)) by lia.
      rewrite mapM_undefined; [by intros [? [=]]|].
      eapply list_elem_of_lookup_2, arraySet_lookup.
  - case_bool_decide as H0; [by injection Hm as <-|].
    destruct (decide (index < length (selectedImages s))) as [Hlt|Hge].
    + destruct (lookup_lt_is_Some_2 (selectedImages s) index) as [a Ha]; [lia|].
      destruct (lookup_lt_is_Some_2 (selectedImages s) (S index)) as [c Hc]; [lia|].
      pose proof (moveImage_down s index a c Ha Hc) as Hu. unfold moveImage in Hu.
      rewrite bool_decide_false in Hu by done. rewrite Hu in Hm.
      injection Hm as <-. cbn.
      rewrite (neighbours_split index a c (selectedImages s)) at 3 by done.
      apply Permutation_app_head, perm_swap.
    + exfalso. revert Hs. unfold swapSlots. rewrite !arrayGet_defined.
      rewrite (lookup_ge_None_2 _ index) by lia.
      rewrite mapM_undefined; [by intros [? [=]]|].
      eapply list_elem_of_lookup_2, arraySet_lookup.
Qed.

Lemma generatePDF_leaves s b :
  selectedImages (generatePDF s b).1.2 = selectedImages s
  ∧ objectURLs (generatePDF s b).2 = objectURLs b.
Proof.
  unfold generatePDF. case_bool_decide; [done|].
  destruct (forLoop _ _ _ _ _); [|done]. by destruct (saveThrows b).
Qed.

(** What one step does to the collection and to the live preview URLs:
    the URLs only grow, and the collection either is a rearrangement of
    part of the old one or the old one with valid new entries behind it. *)
Lemma Step_effect (sb sb' : State num * Browser num) :
  Step sb sb' →
  objectURLs sb.2 `prefix_of` objectURLs sb'.2
  ∧ (selectedImages sb'.1 ⊆+ selectedImages sb.1
     ∨ ∃ added, selectedImages sb'.1 = selectedImages sb.1 ++ added
         ∧ length (selectedImages sb.1) + length added ≤ 50
         ∧ Forall (λ img, type (file img) ∈ accepted
                          ∧ url img ∈ objectURLs sb'.2) added).
Proof.
  assert (∀ files s b,
    objectURLs b `prefix_of` objectURLs (handleFiles files s b).2
    ∧ (selectedImages (handleFiles files s b).1 ⊆+ selectedImages s
       ∨ ∃ added, selectedImages (handleFiles files s b).1
                  = selectedImages s ++ added
           ∧ length (selectedImages s) + length added ≤ 50
           ∧ Forall (λ img, type (file img) ∈ accepted
                            ∧ url img ∈ objectURLs (handleFiles files s b).2)
               added)) as Hfiles.
  { intros [batch|] s b; [|by split; [|left]].
    destruct (handleFiles_cases batch s b)
      as [[_ ->]|[(_ & _ & ->)|(_ & Hcap & ->)]]; [by split; [|left]..|].
    cbn. destruct (toImageData_objectURLs (validImages batch) b)
      as (urls & Hu & ->).
    pose proof (toImageData_files (validImages batch) b) as Hf.
    split; [rewrite Hu; by apply prefix_app_r|]. right.
    exists (toImageData (validImages batch) b).1. split_and!; [done | |].
    - rewrite <-Hf in Hcap at 1. rewrite length_fmap in Hcap. lia.
    - apply Forall_forall. intros img Hin. split.
      + assert (file img ∈ validImages batch) as Hv.
        { rewrite <-Hf. apply list_elem_of_fmap. eauto. }
        by apply list_elem_of_filter in Hv as [? _].
      + rewrite Hu. apply elem_of_app. right. apply list_elem_of_fmap. eauto. }
  destruct 1 as [files s b|files s b|imageId s b|target s b|i s b|s b
                 |index direction s s' b Hm|o s b|m s b|q s b|s b];
    cbn [fst snd]; try apply Hfiles.
  - by split; [|left].
  - split; [done|left]. by rewrite handleDropImage_Permutation.
  - split; [done|left]. unfold removeImage. cbn.
    transitivity (filter (λ img, id img ≠ i) (selectedImages s)).
    + by case_bool_decide.
    + apply sublist_submseteq, sublist_filter.
  - split; [done|left]. by apply submseteq_nil_l.
  - split; [done|left]. by erewrite moveImage_Permutation.
  - by split; [|left].
  - by split; [|left].
  - by split; [|left].
  - destruct (generatePDF_leaves s b) as [-> ->]. by split; [|left].
Qed.

Lemma wellFormed_Step (sb sb' : State num * Browser num) :
  Step sb sb' → wellFormed sb → wellFormed sb'.
Proof.
  intros Hstep [Hlen Hall]. unfold wellFormed.
  destruct (Step_effect sb sb' Hstep) as [[k Hk] Hcoll].
  assert (Forall (λ img, type (file img) ∈ accepted
                         ∧ url img ∈ objectURLs sb'.2) (selectedImages sb.1))
    as Hold.
  { eapply Forall_impl; [done|]. intros img [? ?]. split; [done|].
    rewrite Hk. apply elem_of_app. by left. }
  destruct Hcoll as [Hsub|(added & -> & Hcap & Hadded)].
  - split.
    + apply submseteq_length in Hsub. lia.
    + apply Forall_forall. intros img Hin. rewrite Forall_forall in Hold.
      apply Hold. by eapply elem_of_submseteq.
  - split; [by rewrite length_app | by apply Forall_app].
Qed.

(** X9. Whatever the user does, the collection stays well formed: from a
    state with at most 50 entries, all of accepted types and with live
    preview URLs, every sequence of handler calls leads to such a state. *)
Theorem wellFormed_invariant (sb sb' : State num * Browser num) :
  rtc Step sb sb' → wellFormed sb → wellFormed sb'.
Proof.
  induction 1 as [|sb1 sb2 sb3 Hstep _ IH]; [done|].
  intros Hwf. by apply IH, (wellFormed_Step sb1).
Qed.

(** X10. No handler ever takes a preview URL back: along every sequence
    of handler calls the list of live object URLs only grows at its end. *)
Theorem objectURLs_only_grow (sb sb' : State num * Browser num) :
  rtc Step sb sb' → objectURLs sb.2 `prefix_of` objectURLs sb'.2.
Proof.
  induction 1 as [|sb1 sb2 sb3 Hstep _ IH]; [done|].
  etransitivity; [|done]. by apply Step_effect.
Qed.

(** X11. Taking in two batches one after the other, when both are
    admitted, gives the collection and the browser that taking in their
    concatenation gives; only the count in the notification differs. *)
Theorem handleFiles_twice batch1 batch2 s b :
  validImages batch1 ≠ [] → validImages batch2 ≠ [] →
  length (selectedImages s) + length (validImages batch1)
    + length (validImages batch2) ≤ 50 →
  let s1 := (handleFiles (Some batch1) s b).1 in
  let b1 := (handleFiles (Some batch1) s b).2 in
  selectedImages (handleFiles (Some batch2) s1 b1).1
  = selectedImages (handleFiles (Some (batch1 ++ batch2)) s b).1
  ∧ (handleFiles (Some batch2) s1 b1).2
    = (handleFiles (Some (batch1 ++ batch2)) s b).2
  ∧ status (handleFiles (Some batch2) s1 b1).1
    = Some {| message := pretty (length (validImages batch2)) +:+ " image(s) added";
              severity := success |}
  ∧ status (handleFiles (Some (batch1 ++ batch2)) s b).1
    = Some {| message := pretty (length (validImages batch1)
                                 + length (validImages batch2))
                         +:+ " image(s) added";
              severity := success |}.
Proof.
  intros Hv1 Hv2 Hcap s1 b1. subst s1 b1.
  assert (∀ batch b', length (toImageData batch b').1 = length batch) as Hlen.
  { intros batch b'. rewrite <-(toImageData_files batch b') at 2.
    by rewrite length_fmap. }
  assert (validImages (batch1 ++ batch2)
          = validImages batch1 ++ validImages batch2) as Happ
    by apply filter_app.
  destruct (handleFiles_cases batch1 s b)
    as [[? _]|[(_ & ? & _)|(_ & _ & ->)]]; [done | lia |]. cbn [fst snd].
  match goal with |- context [handleFiles (Some batch2) ?s1 ?b1] =>
    destruct (handleFiles_cases batch2 s1 b1)
      as [[? _]|[(_ & Hc & _)|(_ & _ & ->)]];
      [done | cbn in Hc; rewrite length_app, Hlen in Hc; lia |] end.
  destruct (handleFiles_cases (batch1 ++ batch2) s b)
    as [[Hn _]|[(_ & Hc & _)|(_ & _ & ->)]].
  - rewrite Happ in Hn. by apply app_eq_nil in Hn as [? _].
  - rewrite Happ, length_app in Hc. lia.
  - rewrite Happ, toImageData_app. cbn.
    rewrite <-app_assoc, length_app, !Hlen. done.
Qed.

(** *** Where ids and preview URLs come from *)

Lemma toImageData_draws batch b :
  id <$> (toImageData batch b).1
  = (λ k, String.substring 2 9 (random36 b (drawn b + k))) <$> seq 0 (length batch)
  ∧ url <$> (toImageData batch b).1
    = (λ k, blobURL b (minted b + k)) <$> seq 0 (length batch).
Proof.
  revert b. induction batch as [|f rest IH]; intros b; [done|].
  cbn [toImageData]. unfold createObjectURL, generateId.
  match goal with |- context [toImageData rest ?b'] =>
    destruct (IH b') as [Hid Hurl]; destruct (toImageData rest b') as [tl b3] end.
  cbn in *. rewrite !Nat.add_0_r, Hid, Hurl, <-!fmap_S_seq, <-!list_fmap_compose.
  split; f_equal; apply list_fmap_ext; intros ? k ?; cbn;
    by rewrite Nat.add_succ_r.
Qed.

(** X17. The entries [handleFiles] adds get their ids and preview URLs
    from the browser alone: the k-th new entry carries characters 2 to 10
    of the k-th next [Math.random().toString(36)] and the k-th next object
    URL.  Nothing is compared with the ids already in the collection. *)
Theorem new_ids_are_the_draws batch s b :
  validImages batch ≠ [] →
  length (selectedImages s) + length (validImages batch) ≤ 50 →
  ∃ added,
    selectedImages (handleFiles (Some batch) s b).1 = selectedImages s ++ added
    ∧ id <$> added
      = (λ k, String.substring 2 9 (random36 b (drawn b + k)))
          <$> seq 0 (length (validImages batch))
    ∧ url <$> added
      = (λ k, blobURL b (minted b + k)) <$> seq 0 (length (validImages batch)).
Proof.
  intros Hne Hcap.
  destruct (handleFiles_cases batch s b) as [[? _]|[(_ & ? & _)|(_ & _ & ->)]];
    [done | lia |].
  exists (toImageData (validImages batch) b).1. split; [done|].
  apply toImageData_draws.
Qed.

End Props.
End ImgToPdfProps.

(** ** Further properties of the split form *)
Module PdfSplitProps.
Import PdfSplit PdfSplitFacts.

Implicit Types (st : State) (f : File) (n p : jsstring).

(** *** The selection across the handlers *)

Lemma handleSplit_selection fetch st :
  selectedFile (handleSplit fetch st).1 = selectedFile st
  ∧ fileName (handleSplit fetch st).1 = fileName st
  ∧ pages (handleSplit fetch st).1 = pages st.
Proof.
  unfold handleSplit. destruct (selectedFile st) eqn:Hf; [|by cbn].
  case_bool_decide; [by cbn|].
  destruct (test _ _); [|by cbn]. cbn.
  by destruct (fetch _) as [m|[|]|m]; cbn.
Qed.

Lemma selectionInSync_Step st st' :
  Step st st' → selectionInSync st → selectionInSync st'.
Proof.
  unfold selectionInSync.
  destruct 1 as [files st|files st|value st|fetch st|st]; intros Hs.
  - unfold handleFileChange. destruct (firstFile files) as [f|]; [|done].
    by case_bool_decide.
  - unfold handleDrop. destruct (firstFile files) as [f|]; [|done].
    by case_bool_decide.
  - done.
  - by destruct (handleSplit_selection fetch st) as (-> & -> & _).
  - done.
Qed.

Lemma handleSplit_Post fetch st target body :
  Post target body ∈ (handleSplit fetch st).2 →
  target = endpoint ∧ selectedFile st = Some (file_field body)
  ∧ pages_field body = pages st.
Proof.
  unfold handleSplit. destruct (selectedFile st) as [f|]; [|by intros ?%elem_of_nil].
  case_bool_decide; [by intros ?%elem_of_nil|].
  destruct (test _ _); [|by intros ?%elem_of_nil]. cbn.
  destruct (fetch _) as [m|[|]|m]; cbn; rewrite ?elem_of_cons, elem_of_nil;
    intros Hin; destruct_or!; by simplify_eq.
Qed.

(** X12. In every state the form reaches from its mount, the selected
    file, if any, is a PDF and [fileName] is its name; so every request
    [handleSplit] sends goes to the split endpoint and carries a PDF, the
    selected one, together with the page field as typed. *)
Theorem only_pdfs_are_posted st :
  rtc Step mounted st →
  selectionInSync st
  ∧ ∀ fetch target body,
      Post target body ∈ (handleSplit fetch st).2 →
      target = endpoint
      ∧ selectedFile st = Some (file_field body)
      ∧ type (file_field body) = "application/pdf"
      ∧ fileName st = name (file_field body)
      ∧ pages_field body = pages st.
Proof.
  intros Hrun.
  assert (selectionInSync st) as Hsync.
  { assert (selectionInSync mounted) as H0 by done. revert H0.
    induction Hrun as [|s1 s2 s3 Hstep _ IH]; [done|].
    intros H1. by apply IH, (selectionInSync_Step s1). }
  split; [done|]. intros fetch target body Hin.
  apply handleSplit_Post in Hin as (-> & Hf & Hp).
  unfold selectionInSync in Hsync. rewrite Hf in Hsync.
  by destruct Hsync.
Qed.

(** *** What an attempted split leaves behind *)

(** X13. Once [handleSplit] has sent its request, [loading] is cleared
    again and exactly one message is set.  When the response is ok and its
    body is read, that is the success message, with the download offered
    under [downloadName].  In every other case it is an error and nothing
    is downloaded: "Failed to split PDF" for a response that is not ok; for
    a rejection of [fetch], or of [response.blob()] after an ok response,
    the message of the failure, or the fallback text when that message is
    empty. *)
Theorem handleSplit_after_request fetch st :
  (handleSplit fetch st).2 ≠ [] →
  ∃ f, selectedFile st = Some f
    ∧ let body := {| file_field := f; pages_field := pages st |} in
      let st' := (handleSplit fetch st).1 in
      loading st' = false
      ∧ match fetch body with
        | Responds true =>
            success st' = Some "PDF successfully split and downloaded!"
            ∧ error st' = None
            ∧ (handleSplit fetch st).2
              = [Post endpoint body; Download (downloadName (fileName st))]
        | Responds false =>
            success st' = None ∧ error st' = Some "Failed to split PDF"
            ∧ (handleSplit fetch st).2 = [Post endpoint body]
        | Rejects m | BlobRejects m =>
            success st' = None
            ∧ error st' = Some (if bool_decide (m = "")
                                then "Something went wrong while processing the PDF"
                                else m)
            ∧ (handleSplit fetch st).2 = [Post endpoint body]
        end.
Proof.
  unfold handleSplit. destruct (selectedFile st) as [f|]; [|done].
  case_bool_decide; [done|]. destruct (test _ _); [|done]. cbn.
  intros _. exists f. split; [done|].
  by destruct (fetch _) as [m|[|]|m].
Qed.

Lemma handleSplit_invalid fetch st f :
  selectedFile st = Some f → ¬ PAGESET (stripSpaces (pages st)) →
  ∃ e, handleSplit fetch st = (setError (Some e) st, []).
Proof.
  intros Hf Hbad. unfold handleSplit. rewrite Hf.
  case_bool_decide; [by eauto|].
  rewrite <-test_stripSpaces in Hbad. apply not_true_is_false in Hbad.
  rewrite Hbad. cbn. eauto.
Qed.

(** X14. A validation error does not clear an earlier success: after a
    split that succeeded, changing the page field to a string that fails
    validation and splitting again sends nothing, sets the error, and still
    shows the old success message. *)
Theorem stale_success_beside_error fetch fetch' st f p :
  selectedFile st = Some f →
  PAGESET (stripSpaces (pages st)) →
  fetch {| file_field := f; pages_field := pages st |} = Responds true →
  ¬ PAGESET (stripSpaces p) →
  let st1 := (handleSplit fetch st).1 in
  let again := handleSplit fetch' (handlePagesChange p st1) in
  success st1 = Some "PDF successfully split and downloaded!"
  ∧ again.2 = []
  ∧ is_Some (error again.1)
  ∧ success again.1 = Some "PDF successfully split and downloaded!".
Proof.
  intros Hf Hp Hok Hbad st1 again.
  assert (st1 = setLoading false
                  (setSuccess (Some "PDF successfully split and downloaded!")
                     (setSuccess None (setError None (setLoading true st)))))
    as Hst1.
  { unfold st1, handleSplit. rewrite Hf.
    rewrite bool_decide_false.
    2:{ intros Ht%trim_nil. by apply PAGESET_nonempty in Hp. }
    apply test_stripSpaces in Hp. rewrite Hp. cbn. by rewrite Hok. }
  split; [by rewrite Hst1|].
  destruct (handleSplit_invalid fetch' (handlePagesChange p st1) f)
    as (e & He); [by rewrite Hst1 | done |].
  unfold again. rewrite He. cbn. split_and!; [done | by eauto |].
  by rewrite Hst1.
Qed.

Lemma handleSplit_effects_same fetch st st' :
  selectedFile st = selectedFile st' → pages st = pages st' →
  fileName st = fileName st' →
  (handleSplit fetch st).2 = (handleSplit fetch st').2.
Proof.
  intros Hf Hp Hn. unfold handleSplit. rewrite Hf, Hp, Hn.
  destruct (selectedFile st'); [|done].
  case_bool_decide; [done|]. destruct (test _ _); [|done]. cbn.
  by destruct (fetch _) as [m|[|]|m].
Qed.

(** X15. A file that is not a PDF is refused by both the file input and
    the drop zone with the same error, and the selection made before stays
    in place: a following [handleSplit] behaves towards the server as if
    the refused file had never been offered. *)
Theorem refused_file_keeps_selection fetch files st g :
  firstFile files = Some g → type g ≠ "application/pdf" →
  (selectedFile (handleFileChange files st) = selectedFile st
   ∧ fileName (handleFileChange files st) = fileName st
   ∧ error (handleFileChange files st) = Some "Please upload a PDF file only."
   ∧ (handleSplit fetch (handleFileChange files st)).2 = (handleSplit fetch st).2)
  ∧ (selectedFile (handleDrop files st) = selectedFile st
     ∧ fileName (handleDrop files st) = fileName st
     ∧ error (handleDrop files st) = Some "Please upload a PDF file only."
     ∧ (handleSplit fetch (handleDrop files st)).2 = (handleSplit fetch st).2).
Proof.
  intros Hg Hty. unfold handleFileChange, handleDrop. rewrite Hg.
  rewrite !bool_decide_false by done.
  split; (split_and!; [done..|]); by apply handleSplit_effects_same.
Qed.

(** *** The name of the download *)

Lemma replaceFirst_absent pat rep n :
  (∀ j, ¬ pat `prefix_of` drop j n) → replaceFirst pat rep n = n.
Proof.
  induction n as [|c n IH]; intros Hno.
  - cbn. rewrite bool_decide_false; [done|]. apply (Hno 0).
  - cbn. rewrite bool_decide_false by apply (Hno 0).
    f_equal. apply IH. intros j. apply (Hno (S j)).
Qed.

Lemma replaceFirst_at pat rep n k :
  pat `prefix_of` drop k n → (∀ j, j < k → ¬ pat `prefix_of` drop j n) →
  replaceFirst pat rep n = take k n ++ rep ++ drop (k + length pat) n.
Proof.
  revert k. induction n as [|c n IH]; intros k Hk Hfirst.
  - cbn. rewrite drop_nil in Hk. rewrite bool_decide_true by done.
    by rewrite take_nil, !drop_nil.
  - destruct k as [|k]; cbn.
    + by rewrite bool_decide_true.
    + rewrite bool_decide_false by (apply (Hfirst 0); lia).
      f_equal. apply IH; [done|]. intros j Hj. apply (Hfirst (S j)). lia.
Qed.

Lemma lit_pdf : lit ".pdf" = [46; 112; 100; 102]%N.
Proof. reflexivity. Qed.

(** X16. The download is named split-<stem>.pdf, where the stem is the
    file name without its first ".pdf": for a name stem.pdf whose stem has
    no dot that is "split-" followed by the file name; a name in which
    ".pdf" does not occur (an upper-case extension, say) gets ".pdf"
    appended; and an empty stem is replaced by "document". *)
Theorem downloadName_cases n :
  (∀ stem, n = stem ++ lit ".pdf" → stem ≠ [] → 46%N ∉ stem →
           downloadName n = lit "split-" ++ n)
  ∧ (n ≠ [] → (∀ j, ¬ lit ".pdf" `prefix_of` drop j n) →
     downloadName n = lit "split-" ++ n ++ lit ".pdf")
  ∧ (n = [] ∨ n = lit ".pdf" → downloadName n = lit "split-document.pdf").
Proof.
  unfold downloadName. split_and!.
  - intros stem -> Hne Hdot.
    rewrite (replaceFirst_at _ _ _ (length stem)).
    + rewrite take_app_length, drop_app_ge by (cbn; lia).
      replace (length stem + length (lit ".pdf") - length stem) with 4
        by (cbn; lia).
      cbn. rewrite app_nil_r. by destruct stem.
    + by rewrite drop_app_length.
    + intros j Hj [t Ht]. rewrite drop_app_le in Ht by lia.
      destruct (drop j stem) as [|c rest] eqn:Hd.
      { apply (f_equal length) in Hd. rewrite length_drop in Hd. cbn in Hd. lia. }
      rewrite lit_pdf in Ht. injection Ht as -> _.
      apply Hdot. rewrite <-(take_drop j stem), Hd, elem_of_app. right. left.
  - intros Hne Hno. rewrite replaceFirst_absent by done. by destruct n.
  - by intros [-> | ->].
Qed.

End PdfSplitProps.

(** ** The further properties on the sample inputs *)
Module ImgToPdfPropsRuns.
Import ImgToPdf ImgToPdfProps Samples.

Lemma three_distinct : NoDup (id <$> three).
Proof. apply (bool_decide_unpack _). vm_compute. exact I. Defined.

Lemma moveImage_swaps_neighbours_witness :
  ∃ s', moveImage 0 down (withImages three) = Some s'
        ∧ id <$> selectedImages s' = ["b8h3k1w9c"; "4fzyo82mv"; "zq7m5n0x1"].
Proof.
  destruct (moveImage_swaps_neighbours (withImages three) 0
              (entry png "blob:0" "4fzyo82mv") (entry jpeg "blob:1" "b8h3k1w9c")
              eq_refl eq_refl) as (s' & Hd & _ & Hl & _).
  exists s'. split; [done|]. by rewrite Hl.
Defined.

Lemma moveImage_defined_iff_witness :
  is_Some (moveImage 1 down (withImages three))
  ∧ ¬ is_Some (moveImage 3 down (withImages three)).
Proof.
  split.
  - apply (proj2 (moveImage_defined_iff (withImages three) 1 down)).
    left. cbn. lia.
  - intros Hs.
    apply (proj1 (moveImage_defined_iff (withImages three) 3 down)) in Hs.
    destruct Hs as [Hlt|[[=] _]]. cbn in Hlt. lia.
Defined.

Lemma moveImage_round_trip_witness :
  ∃ s', moveImage 0 down (withImages three) = Some s'
        ∧ moveImage 1 up s' = Some (withImages three).
Proof.
  destruct (moveImage_round_trip (withImages three) 0) as (s' & Hd & Hu & _).
  - cbn. lia.
  - by exists s'.
Defined.

Lemma drop_on_neighbour_is_move_witness :
  ∃ s', moveImage 0 down (withImages three) = Some s'
    ∧ selectedImages
        (handleDropImage "b8h3k1w9c" (handleDragStart "4fzyo82mv" (withImages three)))
      = selectedImages s'.
Proof.
  destruct (drop_on_neighbour_is_move (withImages three) 0
              (entry png "blob:0" "4fzyo82mv") (entry jpeg "blob:1" "b8h3k1w9c")
              three_distinct eq_refl eq_refl ltac:(done) ltac:(done))
    as (s' & Hd & Hdrop & _).
  by exists s'.
Defined.

Lemma drop_back_restores_witness :
  let s1 := handleDropImage "zq7m5n0x1"
              (handleDragStart "4fzyo82mv" (withImages three)) in
  id <$> selectedImages s1 = ["b8h3k1w9c"; "zq7m5n0x1"; "4fzyo82mv"]
  ∧ selectedImages
      (handleDropImage "b8h3k1w9c" (handleDragStart "4fzyo82mv" s1))
    = three.
Proof.
  destruct (drop_back_restores (withImages three) 0 2
              (entry png "blob:0" "4fzyo82mv") (entry gif "blob:2" "zq7m5n0x1")
              three_distinct eq_refl eq_refl ltac:(lia))
    as [Hback _].
  destruct (Hback ltac:(done)) as (x & Hx & _ & Hrestored).
  split; [reflexivity|].
  injection Hx as <-. exact Hrestored.
Defined.

Lemma removeImage_distinct_witness :
  selectedImages (removeImage "b8h3k1w9c" (withImages three) (browser draws)).1
  = [entry png "blob:0" "4fzyo82mv"; entry gif "blob:2" "zq7m5n0x1"]
  ∧ status (removeImage "b8h3k1w9c" (withImages three) (browser draws)).1 = None.
Proof.
  destruct (removeImage_distinct (withImages three) (browser draws) "b8h3k1w9c"
              three_distinct) as (Hnext & _ & Hst).
  change (findIndex "b8h3k1w9c" (selectedImages (withImages three)))
    with (Some 1) in Hnext.
  destruct Hnext as [Hnext _]. split; [by rewrite Hnext|].
  rewrite Hst, Hnext. reflexivity.
Defined.

Lemma generatePDF_stalls_witness :
  let s := withImages (three ++ [entry png "blob:7" "9s8t7u6v5"]) in
  (generatePDF s (browser draws)).1.1 = Stalled
  ∧ loading (generatePDF s (browser draws)).1.2 = true.
Proof.
  intros s.
  destruct (generatePDF_stalls s (browser draws)) as (Hg & Hl & _).
  - unfold s. cbn. rewrite !Exists_cons. do 3 right. by left.
  - split; [by rewrite Hg | done].
Defined.

Lemma generatePDF_finishes_witness :
  Forall (placeable 10%Q (browser draws) 210%Q 297%Q)
    (selectedImages (withImages three))
  ∧ loading (generatePDF (withImages three) (browser draws)).1.2 = false
  ∧ status (generatePDF (withImages three) (browser draws)).1.2
    = Some {| message := "PDF generated with 3 image(s)"; severity := success |}.
Proof.
  assert (Forall (placeable 10%Q (browser draws) 210%Q 297%Q)
            (selectedImages (withImages three))) as Hload.
  { repeat constructor; by eexists _, _. }
  split; [done|].
  destruct (generatePDF_finishes (withImages three) (browser draws)
              ltac:(done) Hload) as (Hl & _ & Hok).
  destruct (Hok eq_refl) as [Hs _]. split; [done | by rewrite Hs].
Defined.

(** All three images load, but [pdf.addImage] raises on the second. *)
Lemma generatePDF_stalls_iff_witness :
  let b := rejecting "blob:1" draws in
  Forall (λ img, is_Some (onload b (url img))) three
  ∧ ¬ Forall (placeable 10%Q b 210%Q 297%Q) (selectedImages (withImages three))
  ∧ (generatePDF (withImages three) b).1.1 = Stalled
  ∧ loading (generatePDF (withImages three) b).1.2 = true
  ∧ downloads (generatePDF (withImages three) b).2 = [].
Proof.
  intros b.
  assert (¬ Forall (placeable 10%Q b 210%Q 297%Q)
              (selectedImages (withImages three))) as Hno.
  { intros Hall. apply Forall_cons in Hall as [_ Hall].
    apply Forall_cons in Hall as [(w & h & _ & Hadd) _]. by vm_compute in Hadd. }
  destruct (generatePDF_stalls_iff (withImages three) b ltac:(done))
    as [Hiff Hstall].
  pose proof (proj2 Hiff Hno) as Hs.
  destruct (Hstall Hs) as (Hl & _ & Hb).
  split_and!; [repeat constructor; by eexists | done | done | done |].
  by rewrite Hb.
Defined.

(** A run: three files come in, the middle one is removed, the first is
    dragged onto the last. *)
Lemma sample_run :
  rtc Step (initial, browser draws)
    (handleDropImage "zq7m5n0x1"
       (handleDragStart "4fzyo82mv"
          (removeImage "b8h3k1w9c"
             (handleFiles (Some [png; txt; jpeg; gif]) initial (browser draws)).1
             (handleFiles (Some [png; txt; jpeg; gif]) initial (browser draws)).2).1),
     (handleFiles (Some [png; txt; jpeg; gif]) initial (browser draws)).2).
Proof.
  set (taken := handleFiles (Some [png; txt; jpeg; gif]) initial (browser draws)).
  eapply rtc_l; [exact (step_files (Some [png; txt; jpeg; gif]) initial (browser draws))|].
  eapply rtc_l; [exact (step_remove "b8h3k1w9c" taken.1 taken.2)|].
  eapply rtc_l; [exact (step_dragStart "4fzyo82mv" _ _)|].
  eapply rtc_l; [exact (step_dropImage "zq7m5n0x1" _ _)|].
  apply rtc_refl.
Defined.

Lemma wellFormed_invariant_witness :
  wellFormed (initial, browser draws)
  ∧ wellFormed
      (handleDropImage "zq7m5n0x1"
         (handleDragStart "4fzyo82mv"
            (removeImage "b8h3k1w9c"
               (handleFiles (Some [png; txt; jpeg; gif]) initial (browser draws)).1
               (handleFiles (Some [png; txt; jpeg; gif]) initial (browser draws)).2).1),
       (handleFiles (Some [png; txt; jpeg; gif]) initial (browser draws)).2).
Proof.
  assert (wellFormed (initial, browser draws)) as H0.
  { split; [cbn; lia | constructor]. }
  split; [done|]. exact (wellFormed_invariant _ _ sample_run H0).
Defined.

(** A run that starts with one live preview: its entry is removed, then
    two more files come in. *)
Lemma sample_run_from_one :
  let taken := handleFiles (Some [png]) initial (browser draws) in
  rtc Step taken
    (handleFiles (Some [jpeg; gif])
       (removeImage "4fzyo82mv" taken.1 taken.2).1
       (removeImage "4fzyo82mv" taken.1 taken.2).2).
Proof.
  intros taken.
  eapply rtc_l; [exact (step_remove "4fzyo82mv" taken.1 taken.2)|].
  eapply rtc_l; [exact (step_files (Some [jpeg; gif]) _ _)|].
  apply rtc_refl.
Defined.

Lemma objectURLs_only_grow_witness :
  let taken := handleFiles (Some [png]) initial (browser draws) in
  let final := handleFiles (Some [jpeg; gif])
                 (removeImage "4fzyo82mv" taken.1 taken.2).1
                 (removeImage "4fzyo82mv" taken.1 taken.2).2 in
  url <$> selectedImages taken.1 = ["blob:0"]
  ∧ objectURLs taken.2 = ["blob:0"]
  ∧ url <$> selectedImages final.1 = ["blob:1"; "blob:2"]
  ∧ objectURLs taken.2 `prefix_of` objectURLs final.2
  ∧ objectURLs final.2 = ["blob:0"; "blob:1"; "blob:2"].
Proof.
  intros taken final.
  split_and!; [reflexivity | reflexivity | reflexivity | | reflexivity].
  exact (objectURLs_only_grow _ _ sample_run_from_one).
Defined.

Lemma handleFiles_twice_witness :
  selectedImages
    (handleFiles (Some [jpeg; gif])
       (handleFiles (Some [png; txt]) initial (browser draws)).1
       (handleFiles (Some [png; txt]) initial (browser draws)).2).1
  = selectedImages
      (handleFiles (Some ([png; txt] ++ [jpeg; gif])) initial (browser draws)).1.
Proof.
  destruct (handleFiles_twice [png; txt] [jpeg; gif] initial (browser draws))
    as (Hc & _); [done | done | vm_compute; lia | exact Hc].
Defined.

Lemma new_ids_are_the_draws_witness :
  ∃ added,
    selectedImages (handleFiles (Some [png; txt; jpeg; gif]) initial (browser draws)).1
    = added
    ∧ id <$> added = ["4fzyo82mv"; "b8h3k1w9c"; "zq7m5n0x1"]
    ∧ url <$> added = ["blob:0"; "blob:1"; "blob:2"].
Proof.
  destruct (new_ids_are_the_draws [png; txt; jpeg; gif] initial (browser draws))
    as (added & Hs & Hid & Hurl); [done | vm_compute; lia |].
  exists added. split_and!; [exact Hs | by rewrite Hid | by rewrite Hurl].
Defined.

End ImgToPdfPropsRuns.

Module PdfSplitPropsRuns.
Import PdfSplit PdfSplitFacts PdfSplitProps Samples.

(** The user picks report.pdf and types a page range. *)
Lemma sample_form_run :
  rtc Step mounted
    (handlePagesChange (lit "1-3") (handleFileChange (Some [report]) mounted)).
Proof.
  eapply rtc_l; [exact (step_fileChange (Some [report]) mounted)|].
  eapply rtc_l; [exact (step_pagesChange (lit "1-3") _)|].
  apply rtc_refl.
Defined.

Lemma only_pdfs_are_posted_witness :
  let st := handlePagesChange (lit "1-3") (handleFileChange (Some [report]) mounted) in
  (handleSplit server st).2
  = [Post endpoint {| file_field := report; pages_field := lit "1-3" |};
     Download (lit "split-report.pdf")]
  ∧ ∀ target body, Post target body ∈ (handleSplit server st).2 →
      type (file_field body) = "application/pdf".
Proof.
  intros st. split; [reflexivity|]. intros target body Hin.
  destruct (only_pdfs_are_posted st sample_form_run) as [_ Hpost].
  by destruct (Hpost server target body Hin) as (_ & _ & Hty & _).
Defined.

Lemma handleSplit_after_request_witness :
  (handleSplit server (splitting "1,3-5,8")).2 ≠ []
  ∧ loading (handleSplit server (splitting "1,3-5,8")).1 = false
  ∧ success (handleSplit server (splitting "1,3-5,8")).1
    = Some "PDF successfully split and downloaded!".
Proof.
  assert ((handleSplit server (splitting "1,3-5,8")).2 ≠ []) as Hne by done.
  destruct (handleSplit_after_request server (splitting "1,3-5,8") Hne)
    as (f & Hf & Hl & Hrest).
  split_and!; [done | done |]. injection Hf as <-.
  by destruct Hrest as [? _].
Defined.

Lemma stale_success_beside_error_witness :
  let st1 := (handleSplit server (splitting "1,3-5,8")).1 in
  let again := handleSplit server (handlePagesChange (lit "abc") st1) in
  again.2 = [] ∧ is_Some (error again.1)
  ∧ success again.1 = Some "PDF successfully split and downloaded!".
Proof.
  destruct (stale_success_beside_error server server (splitting "1,3-5,8")
              report (lit "abc")) as (_ & He & Herr & Hs).
  - done.
  - apply PAGESET_iff_test. by split.
  - done.
  - intros [Ht _]%PAGESET_iff_test. by vm_compute in Ht.
  - by split_and!.
Defined.

Lemma refused_file_keeps_selection_witness :
  let picture := {| name := lit "scan.png"; type := "image/png" |} in
  selectedFile (handleFileChange (Some [picture]) (splitting "1-3")) = Some report
  ∧ (handleSplit server (handleDrop (Some [picture]) (splitting "1-3"))).2
    = (handleSplit server (splitting "1-3")).2.
Proof.
  intros picture.
  destruct (refused_file_keeps_selection server (Some [picture])
              (splitting "1-3") picture eq_refl ltac:(done))
    as [(Hsel & _) (_ & _ & _ & Heff)].
  by split.
Defined.

Lemma downloadName_cases_witness :
  downloadName (lit "report.pdf") = lit "split-report.pdf"
  ∧ downloadName (lit ".pdf") = lit "split-document.pdf".
Proof.
  destruct (downloadName_cases (lit "report.pdf")) as (Hstem & _ & _).
  destruct (downloadName_cases (lit ".pdf")) as (_ & _ & Hdoc).
  split.
  - rewrite (Hstem (lit "report")); [reflexivity | reflexivity | done |].
    intros Hin. vm_compute in Hin.
    repeat (apply elem_of_cons in Hin as [[=]|Hin]). by apply elem_of_nil in Hin.
  - apply Hdoc. by right.
Defined.

End PdfSplitPropsRuns.
